(** * Slot-machine utilities: winning combinations and reel-stop cadence

    A shallow embedding of [winning-combinations.ts] and
    [SlotMachineCadence.ts], and the properties their specification states
    about them.

    Symbols, columns and rows are JavaScript numbers used as integer codes:
    they are modelled as [Z].  Array indices and lengths are [nat].  Cadence
    values are sums of at most four terms taken from [2] and [0.25]; such
    sums are exact in binary floating point, so they are modelled as
    rationals ([Q]). *)

From stdpp Require Import base numbers list sorting gmap.
From Stdlib Require Import QArith.

Local Open Scope nat_scope.

(** ** JavaScript idioms shared by both files *)

(** [arr[i]] for a possibly negative index: [undefined] (here [None])
    outside [0 .. length-1]. *)
Definition js_index {A} (arr : list A) (i : Z) : option A :=
  if bool_decide (0 ≤ i)%Z then arr !! Z.to_nat i else None.

(** [Array.prototype.reduce] with the callback's [index] argument. *)
Fixpoint reduce_from {A B} (f : B → A → nat → B) (index : nat) (acc : B)
    (arr : list A) : B :=
  match arr with
  | [] => acc
  | x :: arr' => reduce_from f (S index) (f acc x index) arr'
  end.

Definition reduce {A B} (f : B → A → nat → B) (arr : list A) (init : B) : B :=
  reduce_from f 0 init arr.

(** [Array.from({length: n}, (_, i) => i)]. *)
Definition array_from_length (n : nat) : list nat := seq 0 n.

Module WinningCombinations.

(** *** Errors *)

Inductive error := InvalidSymbolError.

Inductive outcome (A : Type) :=
  | Returns (a : A)
  | Throws (e : error).
Arguments Returns {A} a.
Arguments Throws {A} e.

#[local] Instance outcome_ret : MRet outcome := λ A a, Returns a.
#[local] Instance outcome_bind : MBind outcome := λ A B f m,
  match m with
  | Returns a => f a
  | Throws e => Throws e
  end.

(** *** Configuration *)

Abbreviation WinningCombinationsResult := (list (Z * list nat)).

Record WinningCombinationConfig := {
  minSequenceLength : nat;
  wildSymbol : Z;
  payingSymbols : list Z;
  nonPayingSymbols : list Z;
}.

Definition config : WinningCombinationConfig := {|
  minSequenceLength := 3;
  wildSymbol := 0;
  payingSymbols := [1; 2; 3; 4; 5; 6; 7; 8; 9]%Z;
  nonPayingSymbols := [10; 11; 12; 13; 14; 15]%Z;
|}.

(** [arr.includes(x)]. *)
Definition includes (arr : list Z) (x : Z) : bool := bool_decide (x ∈ arr).

(** [[...new Set(line)]]: a [Set] keeps its elements in insertion order and
    ignores the insertion of an element it already holds. *)
Definition set_add (elements : list Z) (x : Z) : list Z :=
  if includes elements x then elements else elements ++ [x].

Definition new_Set (line : list Z) : list Z := foldl set_add [] line.

(** *** The functions of [winning-combinations.ts] *)

Definition isElegibleSymbol (symbol : Z) : bool :=
  let isPayingSymbols := includes (payingSymbols config) symbol in
  let isWildSymbol := bool_decide (symbol = wildSymbol config) in
  negb isWildSymbol && isPayingSymbols.

Definition buildAllWildWinningCombinationsResult (columnsCount : nat)
    : WinningCombinationsResult :=
  [(wildSymbol config, array_from_length columnsCount)].

Definition replaceWildToSymbolInLine (lineSymbols : list Z) (symbol : Z)
    : list Z :=
  (λ symbolToReplace,
     if bool_decide (symbolToReplace ≠ wildSymbol config)
     then symbolToReplace
     else symbol) <$> lineSymbols.

(** [acc[acc.length - 1].push(index)].  The source reaches it only with a
    non-empty [acc]; on an empty one the model leaves [acc] as it is. *)
Definition push_to_last (acc : list (list nat)) (index : nat)
    : list (list nat) :=
  alter (λ sequence, sequence ++ [index]) (length acc - 1) acc.

Definition buildSymbolSequences_step (line : list Z) (symbol : Z)
    (acc : list (list nat)) (currentSymbol : Z) (index : nat)
    : list (list nat) :=
  if bool_decide (currentSymbol = symbol) then
    if bool_decide (length acc = 0)
       || bool_decide (js_index line (Z.of_nat index - 1) ≠ Some symbol)
    then acc ++ [[index]]
    else push_to_last acc index
  else acc.

Definition buildSymbolSequences (line : list Z) (symbol : Z)
    : list (list nat) :=
  reduce (buildSymbolSequences_step line symbol) line [].

Definition findPaylinePositions (sequences : list (list nat))
    : option (list nat) :=
  snd <$> list_find (λ sequence, minSequenceLength config ≤ length sequence)
            sequences.

Definition allSymbols : list Z :=
  [wildSymbol config] ++ payingSymbols config ++ nonPayingSymbols config.

Definition validateSymbols (symbols : list Z) : outcome bool :=
  if negb (forallb (λ symbol, includes allSymbols symbol) symbols)
  then Throws InvalidSymbolError
  else Returns true.

(** The body of the [forEach] callback of [call]; [winningCombinationsResult]
    is the array the callback pushes to. *)
Definition call_visit (line : list Z)
    (winningCombinationsResult : WinningCombinationsResult) (symbol : Z)
    : WinningCombinationsResult :=
  if negb (isElegibleSymbol symbol) then winningCombinationsResult
  else
    let lineWithReplacedWilds := replaceWildToSymbolInLine line symbol in
    let symbolSequences := buildSymbolSequences lineWithReplacedWilds symbol in
    match findPaylinePositions symbolSequences with
    | Some paylinePositions =>
        winningCombinationsResult ++ [(symbol, paylinePositions)]
    | None => winningCombinationsResult
    end.

Definition call (line : list Z) : outcome WinningCombinationsResult :=
  let uniqueSymbols := new_Set line in
  _ ← validateSymbols uniqueSymbols;
  let isOnlyWildSymbol :=
    bool_decide (length uniqueSymbols = 1)
    && bool_decide (uniqueSymbols !! 0 = Some (wildSymbol config)) in
  if isOnlyWildSymbol then
    Returns (buildAllWildWinningCombinationsResult (length line))
  else
    Returns (foldl (call_visit line) [] uniqueSymbols).

(** *** Vocabulary of the specification *)

(** The configured universe of symbols. *)
Definition in_universe (symbol : Z) : Prop :=
  symbol = wildSymbol config
  ∨ symbol ∈ payingSymbols config
  ∨ symbol ∈ nonPayingSymbols config.

#[export] Instance in_universe_dec symbol : Decision (in_universe symbol).
Proof. unfold in_universe. apply _. Defined.

(** A payline composed entirely of the wild symbol: it holds at least one
    symbol and holds nothing but the wild, that is, its set of distinct
    symbols is exactly [{wild}] (lemma [only_wild_new_Set]). *)
Definition only_wild (line : list Z) : Prop :=
  line ≠ [] ∧ Forall (λ symbol, symbol = wildSymbol config) line.

#[export] Instance only_wild_dec line : Decision (only_wild line).
Proof. unfold only_wild. apply _. Defined.

(** [is_run line symbol a n]: the positions [a .. a+n-1] of [line] are a
    maximal run of [symbol]: they all hold it, the position before [a] (if
    any) does not, and the position after [a+n-1] (if any) does not. *)
Definition is_run (line : list Z) (symbol : Z) (a n : nat) : Prop :=
  0 < n
  ∧ (∀ j, a ≤ j < a + n → line !! j = Some symbol)
  ∧ (∀ j, S j = a → line !! j ≠ Some symbol)
  ∧ line !! (a + n) ≠ Some symbol.

(** Every position of the first sequence is before every position of the
    second. *)
Definition run_lt (r1 r2 : list nat) : Prop :=
  ∀ i j, i ∈ r1 → j ∈ r2 → i < j.

(** [sequences] lists the maximal runs of [symbol] in [line]: each of its
    elements is a run [a; ...; a+n-1], every run is among them, and they are
    in left-to-right order. *)
Record sequences_of (line : list Z) (symbol : Z)
    (sequences : list (list nat)) : Prop := {
  sequences_sound :
    ∀ r, r ∈ sequences → ∃ a n, r = seq a n ∧ is_run line symbol a n;
  sequences_complete :
    ∀ a n, is_run line symbol a n → seq a n ∈ sequences;
  sequences_sorted : StronglySorted run_lt sequences;
}.

(** The invariant of the [reduce] loop once it has scanned [prefix]: [acc]
    lists the runs of the prefix and, when the prefix ends with the symbol,
    the last sequence of [acc] is the run that ends there. *)
Definition scan_invariant (prefix : list Z) (symbol : Z)
    (acc : list (list nat)) : Prop :=
  sequences_of prefix symbol acc
  ∧ (last prefix = Some symbol →
     ∃ acc' a n, acc = acc' ++ [seq a n] ∧ a + n = length prefix
                 ∧ is_run prefix symbol a n).

(** The substituted line of the specification, in its own words:
    [substituted] is [line] with every wild position replaced by the
    candidate [symbol] and every other position unchanged. *)
Definition wild_substitution (line : list Z) (symbol : Z)
    (substituted : list Z) : Prop :=
  length substituted = length line
  ∧ (∀ i, line !! i = Some (wildSymbol config) →
          substituted !! i = Some symbol)
  ∧ (∀ i x, line !! i = Some x → x ≠ wildSymbol config →
            substituted !! i = Some x).

(** A run of at least [minSequenceLength] positions. *)
Definition qualifying_run (line : list Z) (symbol : Z) (a n : nat) : Prop :=
  is_run line symbol a n ∧ minSequenceLength config ≤ n.

(** The leftmost of the qualifying runs. *)
Definition leftmost_qualifying_run (line : list Z) (symbol : Z) (a n : nat)
    : Prop :=
  qualifying_run line symbol a n
  ∧ ∀ b m, qualifying_run line symbol b m → a ≤ b.

(** What one distinct symbol contributes to the result. *)
Definition combination_of (line : list Z) (symbol : Z)
    : option (Z * list nat) :=
  if isElegibleSymbol symbol then
    (λ positions, (symbol, positions))
      <$> findPaylinePositions
            (buildSymbolSequences (replaceWildToSymbolInLine line symbol)
               symbol)
  else None.

(** The position at which a symbol first appears in the payline. *)
Definition first_appearance (line : list Z) (symbol : Z) : option nat :=
  fst <$> list_find (λ x, x = symbol) line.

(** [s1] first appears in the payline before [s2] first appears. *)
Definition appears_before (line : list Z) (s1 s2 : Z) : Prop :=
  ∃ p1 p2, first_appearance line s1 = Some p1
           ∧ first_appearance line s2 = Some p2 ∧ p1 < p2.

(** The positions of [line] that hold [symbol], in increasing order. *)
Definition positions_of (line : list Z) (symbol : Z) : list nat :=
  filter (λ i, line !! i = Some symbol) (seq 0 (length line)).

End WinningCombinations.

(** ** The refactored copies of [winning-combinations.ts]

    [SlotMachineCadence.ts] carries two further copies of the module.  Their
    [config], [isElegibleSymbol], [replaceWildToSymbolInLine],
    [findPaylinePositions], [buildSymbolSequences] and [validateSymbols] are
    those of [winning-combinations.ts]; what differs is below. *)
Module WinningCombinationsRefactored.
Import WinningCombinations.

#[local] Existing Instance outcome_bind.

Definition buildAllPositions (columnsCount : nat) : list nat :=
  array_from_length columnsCount.

(** [v || null] for [v] an array or [undefined]: an array is truthy, also
    when it is empty. *)
Definition array_or_null (v : option (list nat)) : option (list nat) :=
  match v with
  | Some arr => Some arr
  | None => None
  end.

Definition getPaylinePositionsBySymbol (line : list Z) (symbol : Z)
    : option (list nat) :=
  let lineWithReplacedWilds := replaceWildToSymbolInLine line symbol in
  let sequencesBySymbol := buildSymbolSequences lineWithReplacedWilds symbol in
  array_or_null (findPaylinePositions sequencesBySymbol).

Definition call_visit (line : list Z)
    (winningCombinationsResult : WinningCombinationsResult) (symbol : Z)
    : WinningCombinationsResult :=
  if negb (isElegibleSymbol symbol) then winningCombinationsResult
  else
    match getPaylinePositionsBySymbol line symbol with
    | Some paylinePositions =>
        winningCombinationsResult ++ [(symbol, paylinePositions)]
    | None => winningCombinationsResult
    end.

Definition call (line : list Z) : outcome WinningCombinationsResult :=
  let uniqueSymbols := new_Set line in
  _ ← validateSymbols uniqueSymbols;
  let isOnlyWildSymbol :=
    bool_decide (length uniqueSymbols = 1)
    && bool_decide (uniqueSymbols !! 0 = Some (wildSymbol config)) in
  if isOnlyWildSymbol then
    let paylinePositions := buildAllPositions (length line) in
    Returns [(wildSymbol config, paylinePositions)]
  else
    Returns (foldl (call_visit line) [] uniqueSymbols).

End WinningCombinationsRefactored.

Module Cadence.

(** *** Types and configuration *)

Record AnticipatorConfig := {
  columnSize : nat;
  minToAnticipate : nat;
  maxToAnticipate : nat;
  anticipateCadence : Q;
  defaultCadence : Q;
}.

Record SlotCoordinate := { column : Z; row : Z }.

Record SpecialSymbol := { specialSymbols : list SlotCoordinate }.

Module RoundsSymbols.
Record t := { roundOne : SpecialSymbol; roundTwo : SpecialSymbol;
              roundThree : SpecialSymbol }.
End RoundsSymbols.

Abbreviation SlotCadence := (list Q).

(** [0.25] is written [1 # 4]. *)
Definition anticipatorConfig : AnticipatorConfig := {|
  columnSize := 5;
  minToAnticipate := 2;
  maxToAnticipate := 3;
  anticipateCadence := 2;
  defaultCadence := 1 # 4;
|}.

Definition gameRounds : RoundsSymbols.t := {|
  RoundsSymbols.roundOne := {| specialSymbols :=
    [ {| column := 0; row := 2 |}; {| column := 1; row := 3 |};
      {| column := 3; row := 4 |} ] |};
  RoundsSymbols.roundTwo := {| specialSymbols :=
    [ {| column := 0; row := 2 |}; {| column := 0; row := 3 |} ] |};
  RoundsSymbols.roundThree := {| specialSymbols :=
    [ {| column := 4; row := 2 |}; {| column := 4; row := 3 |} ] |};
|}.

(** *** The pure functions of [SlotMachineCadence.ts] *)

(** [forEachColumnIndex]: the callback updates the variables it closes over,
    here the state [st]. *)
Definition forEachColumnIndex {St} (callback : nat → St → St) (st : St) : St :=
  foldl (λ st index, callback index st) st
        (array_from_length (columnSize anticipatorConfig)).

Definition calculateCumulativeSymbolCountsPerColumn
    (symbols : list SlotCoordinate) : list nat :=
  let '(totalCount, symbolsAccumulatorPerColumn) :=
    forEachColumnIndex (λ index '(totalCount, symbolsAccumulatorPerColumn),
      let symbolsColumnCount :=
        length (filter (λ symbol, column symbol = Z.of_nat index) symbols) in
      let totalCount := totalCount + symbolsColumnCount in
      (totalCount, symbolsAccumulatorPerColumn ++ [totalCount]))
      (0, []) in
  symbolsAccumulatorPerColumn.

(** Truthiness of a number that is a count. *)
Definition truthy (n : nat) : bool := bool_decide (n ≠ 0).

(** [v || null] for [v] a count or [undefined]. *)
Definition or_null (v : option nat) : option nat :=
  match v with
  | Some n => if truthy n then Some n else None
  | None => None
  end.

Definition calculateCadence (previousCadence : option Q)
    (previousSymbolsCount : option nat) : Q :=
  match previousCadence with
  | None => 0%Q
  | Some previousCadence =>
      let isAnticipating :=
        match previousSymbolsCount with
        | None => false
        | Some previousSymbolsCount =>
            truthy previousSymbolsCount
            && bool_decide (minToAnticipate anticipatorConfig
                              ≤ previousSymbolsCount)
            && bool_decide (previousSymbolsCount
                              < maxToAnticipate anticipatorConfig)
        end in
      if isAnticipating
      then (previousCadence + anticipateCadence anticipatorConfig)%Q
      else (previousCadence + defaultCadence anticipatorConfig)%Q
  end.

Definition calculateSlotCadence (symbols : list SlotCoordinate) : SlotCadence :=
  let symbolsAccumulatorPerColumn :=
    calculateCumulativeSymbolCountsPerColumn symbols in
  let '(previousCadence, slotCadence) :=
    forEachColumnIndex (λ index '(previousCadence, slotCadence),
      let previousSymbolsCount :=
        or_null (js_index symbolsAccumulatorPerColumn (Z.of_nat index - 1)) in
      let currentCadence :=
        calculateCadence previousCadence previousSymbolsCount in
      (Some currentCadence, slotCadence ++ [currentCadence]))
      (None, []) in
  slotCadence.

(** *** The object store

    [handleCadences] writes to the module-level object [slotMachineCadences]
    and returns it, so object identity matters: objects live in a store and
    values of object type are references into it. *)

Definition ref := nat.

Module RoundsCadences.
Record t := { roundOne : ref; roundTwo : ref; roundThree : ref }.
End RoundsCadences.

Inductive object :=
  | ArrayObject (elements : SlotCadence)
  | RoundsCadencesObject (fields : RoundsCadences.t).

Abbreviation store := (gmap ref object).

(** A computation that reads and writes the store. *)
Definition js (A : Type) : Type := store → A * store.

#[local] Instance js_ret : MRet js := λ A a σ, (a, σ).
#[local] Instance js_bind : MBind js := λ A B k m σ,
  let '(a, σ') := m σ in k a σ'.

(** An array literal or a function's local array being returned: a new
    object at an unused reference. *)
Definition new_object (o : object) : js ref :=
  λ σ, let r := fresh (dom σ) in (r, <[r := o]> σ).

Definition set_roundOne (target value : ref) : js unit :=
  λ σ, (tt, alter (λ o, match o with
                         | RoundsCadencesObject f =>
                             RoundsCadencesObject
                               {| RoundsCadences.roundOne := value;
                                  RoundsCadences.roundTwo := RoundsCadences.roundTwo f;
                                  RoundsCadences.roundThree := RoundsCadences.roundThree f |}
                         | _ => o
                         end) target σ).

Definition set_roundTwo (target value : ref) : js unit :=
  λ σ, (tt, alter (λ o, match o with
                         | RoundsCadencesObject f =>
                             RoundsCadencesObject
                               {| RoundsCadences.roundOne := RoundsCadences.roundOne f;
                                  RoundsCadences.roundTwo := value;
                                  RoundsCadences.roundThree := RoundsCadences.roundThree f |}
                         | _ => o
                         end) target σ).

Definition set_roundThree (target value : ref) : js unit :=
  λ σ, (tt, alter (λ o, match o with
                         | RoundsCadencesObject f =>
                             RoundsCadencesObject
                               {| RoundsCadences.roundOne := RoundsCadences.roundOne f;
                                  RoundsCadences.roundTwo := RoundsCadences.roundTwo f;
                                  RoundsCadences.roundThree := value |}
                         | _ => o
                         end) target σ).

(** The store once the module's top-level constants are evaluated:
    [slotMachineCadences = { roundOne: [], roundTwo: [], roundThree: [] }]. *)
Definition slotMachineCadences : ref := 3.

Definition initial_store : store :=
  <[slotMachineCadences :=
      RoundsCadencesObject {| RoundsCadences.roundOne := 0;
                              RoundsCadences.roundTwo := 1;
                              RoundsCadences.roundThree := 2 |}]>
  (<[2 := ArrayObject []]> (<[1 := ArrayObject []]> (<[0 := ArrayObject []]> ∅))).

Definition handleCadences (rounds : RoundsSymbols.t) : js ref :=
  a1 ← new_object (ArrayObject (calculateSlotCadence
         (specialSymbols (RoundsSymbols.roundOne rounds))));
  set_roundOne slotMachineCadences a1;;
  a2 ← new_object (ArrayObject (calculateSlotCadence
         (specialSymbols (RoundsSymbols.roundTwo rounds))));
  set_roundTwo slotMachineCadences a2;;
  a3 ← new_object (ArrayObject (calculateSlotCadence
         (specialSymbols (RoundsSymbols.roundThree rounds))));
  set_roundThree slotMachineCadences a3;;
  mret slotMachineCadences.

(** What a holder of the reference [r] to a [RoundsCadences] object sees in
    the store [σ]: the three cadence arrays. *)
Definition read_array (σ : store) (r : ref) : option SlotCadence :=
  match σ !! r with
  | Some (ArrayObject elements) => Some elements
  | _ => None
  end.

Definition read_cadences (σ : store) (r : ref)
    : option (SlotCadence * SlotCadence * SlotCadence) :=
  match σ !! r with
  | Some (RoundsCadencesObject f) =>
      c1 ← read_array σ (RoundsCadences.roundOne f);
      c2 ← read_array σ (RoundsCadences.roundTwo f);
      c3 ← read_array σ (RoundsCadences.roundThree f);
      Some (c1, c2, c3)
  | _ => None
  end.

(** *** Vocabulary of the specification *)

(** The number of special symbols in the columns [0 .. i]. *)
Definition cumulative_count (symbols : list SlotCoordinate) (i : nat) : nat :=
  length (filter (λ symbol, (0 ≤ column symbol ≤ Z.of_nat i)%Z) symbols).

(** The number of special symbols in the column [i]. *)
Definition column_count (symbols : list SlotCoordinate) (i : nat) : nat :=
  length (filter (λ symbol, column symbol = Z.of_nat i) symbols).

(** [forEachColumnIndex] over the first [n] columns. *)
Definition for_each_index {St} (n : nat) (callback : nat → St → St) (st : St)
    : St :=
  foldl (λ st index, callback index st) st (seq 0 n).

(** Whether the count [c] lies in the anticipation window. *)
Definition anticipating (c : nat) : Prop :=
  minToAnticipate anticipatorConfig ≤ c < maxToAnticipate anticipatorConfig.

#[export] Instance anticipating_dec c : Decision (anticipating c).
Proof. unfold anticipating. apply _. Defined.

(** The increment from one column to the next. *)
Definition increment (c : nat) : Q :=
  if decide (anticipating c)
  then anticipateCadence anticipatorConfig
  else defaultCadence anticipatorConfig.

(** The cadence of column [i], by recursion on the column. *)
Fixpoint cadence_at (counts : list nat) (i : nat) : Q :=
  match i with
  | 0 => 0%Q
  | S i' => (cadence_at counts i' + increment (counts !!! i'))%Q
  end.

(** The [forEachColumnIndex] loop of [calculateSlotCadence], over the first
    [n] columns. *)
Definition cadence_loop (counts : list nat) (n : nat)
    : option Q * list Q :=
  for_each_index n (λ index '(previousCadence, slotCadence),
      let previousSymbolsCount :=
        or_null (js_index counts (Z.of_nat index - 1)) in
      let currentCadence :=
        calculateCadence previousCadence previousSymbolsCount in
      (Some currentCadence, slotCadence ++ [currentCadence]))
      (None, []).

(** A second set of rounds, without special symbols. *)
Definition noSymbols : RoundsSymbols.t := {|
  RoundsSymbols.roundOne := {| specialSymbols := [] |};
  RoundsSymbols.roundTwo := {| specialSymbols := [] |};
  RoundsSymbols.roundThree := {| specialSymbols := [] |};
|}.

(** The number of columns before column [i] whose cumulative count lies in
    the anticipation window. *)
Definition anticipations (symbols : list SlotCoordinate) (i : nat) : nat :=
  length (filter (λ j, anticipating (cumulative_count symbols j)) (seq 0 i)).

(** The store after a series of calls of [handleCadences], one per element
    of [calls], each result being dropped. *)
Definition handleCadences_all (calls : list RoundsSymbols.t) (σ : store)
    : store :=
  foldl (λ σ rounds, (handleCadences rounds σ).2) σ calls.

End Cadence.

Module CadenceFacts.
Import Cadence.

(** *** The cumulative counts *)

Lemma cumulative_count_0 symbols :
  cumulative_count symbols 0 = column_count symbols 0.
Proof.
  unfold cumulative_count, column_count.
  induction symbols as [|s symbols IH]; [done|].
  rewrite !filter_cons. repeat case_decide; simpl; lia.
Qed.

Lemma cumulative_count_S symbols i :
  cumulative_count symbols (S i)
  = cumulative_count symbols i + column_count symbols (S i).
Proof.
  unfold cumulative_count, column_count.
  induction symbols as [|s symbols IH]; [done|].
  rewrite !filter_cons. repeat case_decide; simpl; lia.
Qed.

Lemma forEachColumnIndex_eq {St} (callback : nat → St → St) st :
  forEachColumnIndex callback st
  = for_each_index (columnSize anticipatorConfig) callback st.
Proof. done. Qed.

Lemma for_each_index_S {St} n (callback : nat → St → St) st :
  for_each_index (S n) callback st
  = callback n (for_each_index n callback st).
Proof. unfold for_each_index. by rewrite seq_S, foldl_app. Qed.

(** The state of the loop of [calculateCumulativeSymbolCountsPerColumn]
    after [n] columns. *)
Lemma cumulative_loop symbols n :
  for_each_index n (λ index '(totalCount, symbolsAccumulatorPerColumn),
      let symbolsColumnCount :=
        length (filter (λ symbol, column symbol = Z.of_nat index) symbols) in
      let totalCount := totalCount + symbolsColumnCount in
      (totalCount, symbolsAccumulatorPerColumn ++ [totalCount]))
      (0, [])
  = (match n with 0 => 0 | S k => cumulative_count symbols k end,
     cumulative_count symbols <$> seq 0 n).
Proof.
  induction n as [|n IH]; [done|].
  rewrite for_each_index_S, IH, seq_S, fmap_app. simpl.
  f_equal; [|f_equal; f_equal].
  all: destruct n as [|k];
    [symmetry; apply cumulative_count_0|by rewrite cumulative_count_S].
Qed.

Lemma calculateCumulativeSymbolCountsPerColumn_eq symbols :
  calculateCumulativeSymbolCountsPerColumn symbols
  = cumulative_count symbols <$> seq 0 (columnSize anticipatorConfig).
Proof.
  unfold calculateCumulativeSymbolCountsPerColumn.
  by rewrite forEachColumnIndex_eq, cumulative_loop.
Qed.

Lemma calculateCumulativeSymbolCountsPerColumn_lookup symbols i :
  i < columnSize anticipatorConfig →
  calculateCumulativeSymbolCountsPerColumn symbols !! i
  = Some (cumulative_count symbols i).
Proof.
  intros Hi. rewrite calculateCumulativeSymbolCountsPerColumn_eq.
  by rewrite list_lookup_fmap, lookup_seq_lt.
Qed.

(** *** The cadence loop *)

Lemma calculateCadence_first previousSymbolsCount :
  calculateCadence None previousSymbolsCount = 0%Q.
Proof. done. Qed.

Lemma calculateCadence_next previousCadence c :
  calculateCadence (Some previousCadence) (or_null (Some c))
  = (previousCadence + increment c)%Q.
Proof.
  unfold calculateCadence, or_null, increment, truthy, anticipating. simpl.
  repeat (case_bool_decide || case_decide); simpl; try done; lia.
Qed.

Lemma js_index_pred {A} (arr : list A) i :
  js_index arr (Z.of_nat (S i) - 1) = arr !! i.
Proof.
  unfold js_index. rewrite bool_decide_eq_true_2 by lia. f_equal. lia.
Qed.

Lemma cadence_loop_eq counts n :
  n ≤ S (length counts) →
  cadence_loop counts n
  = (match n with 0 => None | S k => Some (cadence_at counts k) end,
     cadence_at counts <$> seq 0 n).
Proof.
  unfold cadence_loop. induction n as [|n IH]; [done|]. intros Hn.
  rewrite for_each_index_S, IH, seq_S, fmap_app by lia. simpl.
  destruct n as [|k]; [done|].
  rewrite js_index_pred.
  destruct (lookup_lt_is_Some_2 counts k) as [c Hc]; [lia|].
  rewrite Hc, calculateCadence_next. simpl.
  by rewrite (list_lookup_total_correct _ _ _ Hc).
Qed.

Lemma calculateSlotCadence_eq symbols :
  calculateSlotCadence symbols
  = cadence_at (calculateCumulativeSymbolCountsPerColumn symbols)
      <$> seq 0 (columnSize anticipatorConfig).
Proof.
  unfold calculateSlotCadence. rewrite forEachColumnIndex_eq.
  fold (cadence_loop (calculateCumulativeSymbolCountsPerColumn symbols)
          (columnSize anticipatorConfig)).
  rewrite cadence_loop_eq; [done|].
  rewrite calculateCumulativeSymbolCountsPerColumn_eq, length_fmap, length_seq.
  lia.
Qed.

Lemma calculateSlotCadence_lookup symbols i :
  i < columnSize anticipatorConfig →
  calculateSlotCadence symbols !! i
  = Some (cadence_at (calculateCumulativeSymbolCountsPerColumn symbols) i).
Proof.
  intros Hi. by rewrite calculateSlotCadence_eq, list_lookup_fmap, lookup_seq_lt.
Qed.

Lemma length_calculateSlotCadence symbols :
  length (calculateSlotCadence symbols) = columnSize anticipatorConfig.
Proof. by rewrite calculateSlotCadence_eq, length_fmap, length_seq. Qed.

Lemma increment_nonneg c : (0 <= increment c)%Q.
Proof. unfold increment. case_decide; done. Qed.

Lemma cadence_at_mono counts i j :
  i ≤ j → (cadence_at counts i <= cadence_at counts j)%Q.
Proof.
  induction 1 as [|j Hle IH]; [apply Qle_refl|].
  eapply Qle_trans; [exact IH|]. simpl.
  eapply Qle_trans; [|apply Qplus_le_r, increment_nonneg].
  rewrite Qplus_0_r. apply Qle_refl.
Qed.

(** C7. The cadence of column 0 is 0.  For a column [i > 0], the cadence is
    the cadence of column [i-1] plus [anticipateCadence] (2) when the number
    of special symbols in the columns [0 .. i-1] lies in
    [[minToAnticipate, maxToAnticipate)] = [[2, 3)], and plus
    [defaultCadence] (0.25) otherwise. *)
Theorem calculateSlotCadence_recurrence (symbols : list SlotCoordinate) :
  calculateSlotCadence symbols !! 0 = Some 0%Q
  ∧ ∀ i, 0 < i < columnSize anticipatorConfig →
      ∃ previous,
        calculateSlotCadence symbols !! (i - 1) = Some previous
        ∧ calculateSlotCadence symbols !! i
          = Some (if decide (minToAnticipate anticipatorConfig
                               ≤ cumulative_count symbols (i - 1)
                               < maxToAnticipate anticipatorConfig)
                  then previous + anticipateCadence anticipatorConfig
                  else previous + defaultCadence anticipatorConfig)%Q.
Proof.
  split.
  - by rewrite calculateSlotCadence_lookup by (simpl; lia).
  - intros [|i] Hi; [lia|].
    replace (S i - 1) with i by lia.
    rewrite !calculateSlotCadence_lookup by lia.
    eexists. split; [done|]. simpl. f_equal.
    assert (calculateCumulativeSymbolCountsPerColumn symbols !!! i
            = cumulative_count symbols i) as ->.
    { apply list_lookup_total_correct,
        calculateCumulativeSymbolCountsPerColumn_lookup. lia. }
    unfold increment, anticipating. by repeat case_decide.
Qed.

Lemma calculateSlotCadence_recurrence_witness :
  calculateSlotCadence (specialSymbols (RoundsSymbols.roundOne gameRounds)) !! 2
  = Some (0 + (1 # 4) + 2)%Q
  ∧ cumulative_count (specialSymbols (RoundsSymbols.roundOne gameRounds)) 1 = 2.
Proof.
  split; [|done].
  destruct (proj2 (calculateSlotCadence_recurrence
                     (specialSymbols (RoundsSymbols.roundOne gameRounds))) 2)
    as (previous & Hprevious & Hcurrent); [simpl; lia|].
  rewrite Hcurrent. injection Hprevious as <-. done.
Defined.

(** C8. The cadence array has one entry per column ([columnSize] = 5
    entries) and is monotonically non-decreasing. *)
Theorem calculateSlotCadence_length_monotone (symbols : list SlotCoordinate) :
  length (calculateSlotCadence symbols) = columnSize anticipatorConfig
  ∧ length (calculateSlotCadence symbols) = 5
  ∧ ∀ i j x y,
      i ≤ j →
      calculateSlotCadence symbols !! i = Some x →
      calculateSlotCadence symbols !! j = Some y →
      (x <= y)%Q.
Proof.
  split_and!; [apply length_calculateSlotCadence..|].
  intros i j x y Hle Hi Hj.
  pose proof (lookup_lt_Some _ _ _ Hi) as Hi'.
  pose proof (lookup_lt_Some _ _ _ Hj) as Hj'.
  rewrite length_calculateSlotCadence in Hi', Hj'.
  rewrite calculateSlotCadence_lookup in Hi, Hj by done.
  simplify_eq. by apply cadence_at_mono.
Qed.

Lemma cumulative_count_filter_in_range symbols i :
  i < columnSize anticipatorConfig →
  cumulative_count
    (filter (λ symbol,
               (0 ≤ column symbol < Z.of_nat (columnSize anticipatorConfig))%Z)
       symbols) i
  = cumulative_count symbols i.
Proof.
  intros Hi. unfold cumulative_count.
  induction symbols as [|s symbols IH]; [done|].
  rewrite (filter_cons
             (λ symbol,
                (0 ≤ column symbol < Z.of_nat (columnSize anticipatorConfig))%Z)
             s symbols).
  case_decide as Hrange.
  - rewrite !filter_cons. case_decide; [|exact IH].
    cbn [length]. by rewrite IH.
  - rewrite IH, filter_cons. case_decide; [lia|done].
Qed.

Lemma calculateSlotCadence_length_monotone_witness :
  length (calculateSlotCadence
            (specialSymbols (RoundsSymbols.roundOne gameRounds))) = 5
  ∧ (1 # 4 <= 0 + (1 # 4) + 2)%Q.
Proof.
  destruct (calculateSlotCadence_length_monotone
              (specialSymbols (RoundsSymbols.roundOne gameRounds)))
    as (_ & Hlen & Hmono).
  split; [exact Hlen|].
  apply (Hmono 1 2); [lia|reflexivity|reflexivity].
Defined.

(** C9. [calculateSlotCadence] has no error path: on every list of
    coordinates it returns an array of [columnSize] cadences, and the
    coordinates whose column lies outside [0 .. columnSize-1] have no effect
    on it: the result is that of the list without them. *)
Theorem calculateSlotCadence_ignores_out_of_range
    (symbols : list SlotCoordinate) :
  calculateSlotCadence symbols
  = calculateSlotCadence
      (filter (λ symbol,
                 (0 ≤ column symbol < Z.of_nat (columnSize anticipatorConfig))%Z)
         symbols)
  ∧ length (calculateSlotCadence symbols) = columnSize anticipatorConfig.
Proof.
  split; [|apply length_calculateSlotCadence].
  rewrite !calculateSlotCadence_eq. f_equal. f_equal.
  rewrite !calculateCumulativeSymbolCountsPerColumn_eq.
  apply list_fmap_ext. intros k i [-> Hi]%lookup_seq.
  symmetry. by apply cumulative_count_filter_in_range.
Qed.

Example calculateSlotCadence_out_of_range :
  calculateSlotCadence
    [ {| column := 0; row := 1 |}; {| column := 7; row := 0 |};
      {| column := -1; row := 2 |}; {| column := 0; row := 0 |} ]
  = calculateSlotCadence
      [ {| column := 0; row := 1 |}; {| column := 0; row := 0 |} ].
Proof. reflexivity. Qed.

(** *** [handleCadences] and the module-level container *)

(** C10, as stated, fails.  Two calls in a row, the first as the module
    itself makes it: both return the same object, and the cadences that the first result shows for round
    one are no longer those of the first call once the second call is
    made. *)
Lemma handleCadences_second_call_overwrites_first :
  let '(first, σ1) := handleCadences gameRounds initial_store in
  let '(second, σ2) := handleCadences noSymbols σ1 in
  first = second
  ∧ read_cadences σ1 first ≠ read_cadences σ2 first
  ∧ match read_cadences σ1 first, read_cadences σ2 first with
    | Some (c1, _, _), Some (c2, _, _) => ¬ Forall2 Qeq c1 c2
    | _, _ => False
    end.
Proof.
  vm_compute. split_and!; [reflexivity|discriminate|].
  intros H. do 2 apply Forall2_cons_1 in H as [_ H].
  apply Forall2_cons_1 in H as [H _]. discriminate H.
Qed.

Lemma new_object_spec o (σ : store) :
  ∃ r, new_object o σ = (r, <[r := o]> σ) ∧ r ∉ dom σ.
Proof. eexists. split; [done|]. apply is_fresh. Qed.

(** C10, as the code has it.  [handleCadences] returns the module-level
    object [slotMachineCadences] itself, whatever the store it runs in: every
    call returns the same object, with its three fields overwritten.  What is
    new at each call are the three cadence arrays: they are objects that did
    not exist before the call, distinct from one another, and they hold the
    cadences of the three rounds; every other object that existed before the
    call, the arrays handed out by earlier calls among them, is unchanged. *)
Theorem handleCadences_returns_module_container
    (rounds : RoundsSymbols.t) (σ : store) (fields : RoundsCadences.t) :
  σ !! slotMachineCadences = Some (RoundsCadencesObject fields) →
  ∃ σ' a1 a2 a3,
    handleCadences rounds σ = (slotMachineCadences, σ')
    ∧ σ' !! slotMachineCadences
      = Some (RoundsCadencesObject
                {| RoundsCadences.roundOne := a1;
                   RoundsCadences.roundTwo := a2;
                   RoundsCadences.roundThree := a3 |})
    ∧ σ' !! a1 = Some (ArrayObject (calculateSlotCadence
                         (specialSymbols (RoundsSymbols.roundOne rounds))))
    ∧ σ' !! a2 = Some (ArrayObject (calculateSlotCadence
                         (specialSymbols (RoundsSymbols.roundTwo rounds))))
    ∧ σ' !! a3 = Some (ArrayObject (calculateSlotCadence
                         (specialSymbols (RoundsSymbols.roundThree rounds))))
    ∧ (a1 ∉ dom σ) ∧ (a2 ∉ dom σ) ∧ (a3 ∉ dom σ)
    ∧ a1 ≠ a2 ∧ a1 ≠ a3 ∧ a2 ≠ a3
    ∧ ∀ r, r ∈ dom σ → r ≠ slotMachineCadences → σ' !! r = σ !! r.
Proof.
  intros Hobj. unfold handleCadences, mbind, js_bind, mret, js_ret.
  destruct (new_object_spec
              (ArrayObject (calculateSlotCadence
                 (specialSymbols (RoundsSymbols.roundOne rounds)))) σ)
    as (a1 & -> & Hf1).
  unfold set_roundOne at 1.
  match goal with
  | |- context [new_object ?o ?s] =>
      destruct (new_object_spec o s) as (a2 & -> & Hf2)
  end.
  unfold set_roundTwo at 1.
  match goal with
  | |- context [new_object ?o ?s] =>
      destruct (new_object_spec o s) as (a3 & -> & Hf3)
  end.
  unfold set_roundThree at 1.
  rewrite ?dom_alter_L, ?dom_insert_L in Hf2, Hf3.
  rewrite ?dom_alter_L, ?dom_insert_L in Hf3.
  assert (slotMachineCadences ∈ dom σ) as Hin by by eapply elem_of_dom_2.
  assert (a1 ≠ slotMachineCadences ∧ a2 ≠ slotMachineCadences
          ∧ a3 ≠ slotMachineCadences ∧ a1 ≠ a2 ∧ a1 ≠ a3 ∧ a2 ≠ a3
          ∧ (a2 ∉ dom σ) ∧ (a3 ∉ dom σ)) as (?&?&?&?&?&?&?&?)
    by set_solver.
  eexists _, a1, a2, a3. split; [reflexivity|].
  split_and!; try done.
  - rewrite lookup_alter_eq, lookup_insert_ne, lookup_alter_eq,
      lookup_insert_ne, lookup_alter_eq, lookup_insert_ne, Hobj by done.
    done.
  - rewrite lookup_alter_ne, lookup_insert_ne, lookup_alter_ne,
      lookup_insert_ne, lookup_alter_ne, lookup_insert_eq by done.
    done.
  - rewrite lookup_alter_ne, lookup_insert_ne, lookup_alter_ne,
      lookup_insert_eq by done.
    done.
  - rewrite lookup_alter_ne, lookup_insert_eq by done. done.
  - intros r Hr Hne.
    assert (r ≠ a1 ∧ r ≠ a2 ∧ r ≠ a3) as (?&?&?) by set_solver.
    rewrite lookup_alter_ne, lookup_insert_ne, lookup_alter_ne,
      lookup_insert_ne, lookup_alter_ne, lookup_insert_ne by done.
    done.
Qed.

Lemma handleCadences_returns_module_container_witness :
  ∃ σ' a1 a2 a3,
    handleCadences gameRounds initial_store = (slotMachineCadences, σ')
    ∧ σ' !! slotMachineCadences
      = Some (RoundsCadencesObject
                {| RoundsCadences.roundOne := a1;
                   RoundsCadences.roundTwo := a2;
                   RoundsCadences.roundThree := a3 |})
    ∧ σ' !! a1 = Some (ArrayObject (calculateSlotCadence
                         (specialSymbols (RoundsSymbols.roundOne gameRounds))))
    ∧ σ' !! a2 = Some (ArrayObject (calculateSlotCadence
                         (specialSymbols (RoundsSymbols.roundTwo gameRounds))))
    ∧ σ' !! a3 = Some (ArrayObject (calculateSlotCadence
                         (specialSymbols (RoundsSymbols.roundThree gameRounds))))
    ∧ (a1 ∉ dom initial_store) ∧ (a2 ∉ dom initial_store)
    ∧ (a3 ∉ dom initial_store)
    ∧ a1 ≠ a2 ∧ a1 ≠ a3 ∧ a2 ≠ a3
    ∧ ∀ r, r ∈ dom initial_store → r ≠ slotMachineCadences →
           σ' !! r = initial_store !! r.
Proof.
  exact (handleCadences_returns_module_container gameRounds initial_store
           {| RoundsCadences.roundOne := 0; RoundsCadences.roundTwo := 1;
              RoundsCadences.roundThree := 2 |} eq_refl).
Defined.

Example cum_round_one :
  calculateCumulativeSymbolCountsPerColumn
    (specialSymbols (RoundsSymbols.roundOne gameRounds)) = [1; 2; 2; 3; 3].
Proof. vm_compute. reflexivity. Qed.

(** The cadence case of the specification: special symbols in the columns
    0, 0 and 1. *)
Example cadence_columns_0_0_1 :
  calculateCumulativeSymbolCountsPerColumn
    [ {| column := 0; row := 0 |}; {| column := 0; row := 1 |};
      {| column := 1; row := 0 |} ] = [2; 3; 3; 3; 3]
  ∧ Forall2 Qeq
      (calculateSlotCadence
         [ {| column := 0; row := 0 |}; {| column := 0; row := 1 |};
           {| column := 1; row := 0 |} ])
      [0; 2; 9 # 4; 5 # 2; 11 # 4]%Q.
Proof. split; [reflexivity|repeat constructor]. Qed.

Example cadence_round_one :
  Forall2 Qeq (calculateSlotCadence
    (specialSymbols (RoundsSymbols.roundOne gameRounds)))
    [0; 1 # 4; 9 # 4; 17 # 4; 9 # 2]%Q.
Proof. repeat constructor. Qed.

End CadenceFacts.

Module WinningCombinationsFacts.
Import WinningCombinations.

(** *** The set of distinct symbols *)

Lemma includes_true arr x : includes arr x = true ↔ x ∈ arr.
Proof. apply bool_decide_eq_true. Qed.

Lemma includes_false arr x : includes arr x = false ↔ x ∉ arr.
Proof. apply bool_decide_eq_false. Qed.

Lemma elem_of_set_add elements x y :
  y ∈ set_add elements x ↔ y ∈ elements ∨ y = x.
Proof.
  unfold set_add. destruct (includes elements x) eqn:E.
  - apply includes_true in E. split; [auto | intros [?| ->]; done].
  - rewrite elem_of_app, list_elem_of_singleton. done.
Qed.

Lemma new_Set_snoc line x : new_Set (line ++ [x]) = set_add (new_Set line) x.
Proof. unfold new_Set. by rewrite foldl_app. Qed.

Lemma elem_of_new_Set line x : x ∈ new_Set line ↔ x ∈ line.
Proof.
  induction line as [|y line IH] using rev_ind.
  - done.
  - rewrite new_Set_snoc, elem_of_set_add, IH, elem_of_app,
      list_elem_of_singleton. done.
Qed.

Lemma NoDup_set_add elements x : NoDup elements → NoDup (set_add elements x).
Proof.
  intros Hnd. unfold set_add. destruct (includes elements x) eqn:E; [done|].
  apply includes_false in E. apply NoDup_app. split_and!; [done| |].
  - intros y Hy ->%list_elem_of_singleton. done.
  - apply NoDup_singleton.
Qed.

Lemma NoDup_new_Set line : NoDup (new_Set line).
Proof.
  induction line as [|y line IH] using rev_ind.
  - constructor.
  - rewrite new_Set_snoc. by apply NoDup_set_add.
Qed.

Lemma new_Set_nil_inv line : new_Set line = [] → line = [].
Proof.
  intros H. destruct line as [|x line]; [done|].
  assert (x ∈ new_Set (x :: line)) as Hx by (apply elem_of_new_Set; left).
  rewrite H in Hx. by apply elem_of_nil in Hx.
Qed.

Lemma only_wild_new_Set line :
  only_wild line ↔ new_Set line = [wildSymbol config].
Proof.
  split.
  - intros [Hne Hall]. rewrite Forall_forall in Hall.
    pose proof (NoDup_new_Set line) as Hnd.
    destruct (new_Set line) as [|a [|b u]] eqn:E.
    + by apply new_Set_nil_inv in E.
    + f_equal. apply Hall, elem_of_new_Set. rewrite E. left.
    + assert (a = wildSymbol config) as ->
        by (apply Hall, elem_of_new_Set; rewrite E; left).
      assert (b = wildSymbol config) as ->
        by (apply Hall, elem_of_new_Set; rewrite E; right; left).
      apply NoDup_cons in Hnd as [Hnd _]. exfalso. apply Hnd. left.
  - intros E. split.
    + intros ->. done.
    + apply Forall_forall. intros x Hx. apply elem_of_new_Set in Hx.
      rewrite E in Hx. by apply list_elem_of_singleton in Hx.
Qed.

(** The test [isOnlyWildSymbol] of [call]. *)
Lemma isOnlyWildSymbol_spec line :
  bool_decide (length (new_Set line) = 1)
  && bool_decide (new_Set line !! 0 = Some (wildSymbol config)) = true
  ↔ only_wild line.
Proof.
  rewrite only_wild_new_Set, andb_true_iff, !bool_decide_eq_true.
  destruct (new_Set line) as [|a [|b u]]; simpl; split;
    first [ by intros [_ [= ->]] | by intros [[=] _] | by intros [= ->]
          | done ].
Qed.

(** *** Validation *)

Lemma elem_of_allSymbols symbol : symbol ∈ allSymbols ↔ in_universe symbol.
Proof.
  unfold allSymbols, in_universe.
  rewrite !elem_of_app, list_elem_of_singleton. done.
Qed.

Lemma in_universe_range symbol : in_universe symbol ↔ (0 ≤ symbol ≤ 15)%Z.
Proof.
  unfold in_universe. simpl. rewrite !elem_of_cons, elem_of_nil. lia.
Qed.

Lemma validateSymbols_returns symbols :
  validateSymbols symbols = Returns true ↔ Forall in_universe symbols.
Proof.
  unfold validateSymbols.
  destruct (forallb _ symbols) eqn:E; simpl.
  - split; [intros _|done]. apply Is_true_true_2, forallb_True in E.
    eapply Forall_impl; [exact E|]. intros x Hx. simpl in Hx.
    apply elem_of_allSymbols, includes_true. by apply Is_true_true_1.
  - split; [done|]. intros H. exfalso.
    apply (Is_true_false_2 _ E), forallb_True.
    eapply Forall_impl; [exact H|]. intros x Hx. simpl.
    apply Is_true_true_2, includes_true, elem_of_allSymbols, Hx.
Qed.

Lemma validateSymbols_cases symbols :
  validateSymbols symbols = Returns true
  ∨ validateSymbols symbols = Throws InvalidSymbolError.
Proof. unfold validateSymbols. destruct (negb _); auto. Qed.

Lemma Forall_new_Set (P : Z → Prop) line :
  Forall P (new_Set line) ↔ Forall P line.
Proof.
  rewrite !Forall_forall. by setoid_rewrite elem_of_new_Set.
Qed.

(** [call] on a valid line is the all-wild short-circuit or the [forEach]
    loop; on any other line it throws. *)
Lemma call_valid line :
  Forall in_universe line →
  call line =
    if bool_decide (only_wild line)
    then Returns (buildAllWildWinningCombinationsResult (length line))
    else Returns (foldl (call_visit line) [] (new_Set line)).
Proof.
  intros Hv. unfold call.
  apply Forall_new_Set, validateSymbols_returns in Hv. rewrite Hv. simpl.
  destruct (bool_decide (length _ = 1) && _) eqn:E.
  - apply isOnlyWildSymbol_spec in E. by rewrite bool_decide_eq_true_2.
  - rewrite bool_decide_eq_false_2; [done|].
    intros H%isOnlyWildSymbol_spec. simpl in *. congruence.
Qed.

Lemma call_invalid_throws line :
  ¬ Forall in_universe line → call line = Throws InvalidSymbolError.
Proof.
  intros Hv. unfold call.
  destruct (validateSymbols_cases (new_Set line)) as [H|H]; rewrite H; [|done].
  exfalso. by apply Hv, Forall_new_Set, validateSymbols_returns.
Qed.

(** C1. [call] throws [InvalidSymbolError] exactly when the payline holds a
    symbol outside the universe [{wild} ∪ paying ∪ non-paying], that is
    outside [0 .. 15]; and it returns a combination list exactly when every
    symbol is inside: a throwing evaluation has no list, partial or not. *)
Theorem call_throws_iff_symbol_outside_universe (line : list Z) :
  (call line = Throws InvalidSymbolError
   ↔ ∃ symbol, symbol ∈ line ∧ ¬ in_universe symbol)
  ∧ (call line = Throws InvalidSymbolError
     ↔ ∃ symbol, symbol ∈ line ∧ ¬ (0 ≤ symbol ≤ 15)%Z)
  ∧ ((∃ combinations, call line = Returns combinations)
     ↔ Forall in_universe line).
Proof.
  assert (call line = Throws InvalidSymbolError
          ↔ ∃ symbol, symbol ∈ line ∧ ¬ in_universe symbol) as H1.
  { split.
    - intros H. destruct (decide (Forall in_universe line)) as [Hv|Hv].
      + rewrite (call_valid _ Hv) in H. by case_bool_decide.
      + apply not_Forall_Exists in Hv; [|intros ?; apply _].
        by apply Exists_exists in Hv.
    - intros (symbol & Hin & Hout). apply call_invalid_throws.
      rewrite Forall_forall. intros Hall. by apply Hout, Hall. }
  split_and!.
  - exact H1.
  - rewrite H1. by setoid_rewrite in_universe_range.
  - split.
    + intros [r Hr]. destruct (decide (Forall in_universe line)); [done|].
      rewrite call_invalid_throws in Hr; done.
    + intros Hv. rewrite (call_valid _ Hv). case_bool_decide; eauto.
Qed.

(** C2. On a payline composed entirely of the wild symbol (it holds at least
    one symbol, and only wilds), [call] returns exactly one combination: the
    wild symbol with the positions [0 .. n-1], [n] the length of the
    payline.  The payline without any symbol is the case of
    [call_short_payline]. *)
Theorem call_only_wild (line : list Z) :
  only_wild line →
  call line = Returns [(wildSymbol config, seq 0 (length line))].
Proof.
  intros Hw. rewrite call_valid.
  - by rewrite bool_decide_eq_true_2.
  - destruct Hw as [_ Hw]. eapply Forall_impl; [exact Hw|].
    intros x ->. by left.
Qed.

Lemma call_only_wild_witness :
  only_wild [0; 0]%Z ∧ call [0; 0]%Z = Returns [(0%Z, [0; 1])].
Proof.
  assert (only_wild [0; 0]%Z) as H by (split; [done | by repeat constructor]).
  split; [exact H | exact (call_only_wild [0; 0]%Z H)].
Defined.

(** *** Runs of a symbol *)

Section runs.
Context (symbol : Z).

Lemma is_run_bound line a n : is_run line symbol a n → a + n ≤ length line.
Proof.
  intros (Hn & Hin & _ & _).
  assert (line !! (a + n - 1) = Some symbol) as H by (apply Hin; lia).
  apply lookup_lt_Some in H. lia.
Qed.

Lemma last_lookup_pred (line : list Z) j :
  S j = length line → line !! j = last line.
Proof. intros H. rewrite last_lookup. f_equal. lia. Qed.

Lemma is_run_snoc_ne line x a n :
  x ≠ symbol →
  is_run (line ++ [x]) symbol a n ↔ is_run line symbol a n.
Proof.
  intros Hx. unfold is_run. setoid_rewrite lookup_snoc_Some.
  split; intros (Hn & Hin & Hl & Hr); split_and!; try done.
  - intros j Hj. destruct (Hin j Hj) as [[_ ?]|[_ ?]]; done.
  - intros j Hj H. apply (Hl j Hj). left.
    split; [by eapply lookup_lt_Some|done].
  - intros H. apply Hr. left. split; [by eapply lookup_lt_Some|done].
  - intros j Hj. left. pose proof (Hin j Hj) as H.
    split; [by eapply lookup_lt_Some|done].
  - intros j Hj [[_ H]|[_ H]]; [by apply (Hl j Hj)|done].
  - intros [[_ H]|[_ H]]; done.
Qed.

Lemma is_run_snoc_new line a n :
  last line ≠ Some symbol →
  is_run (line ++ [symbol]) symbol a n
  ↔ is_run line symbol a n ∨ (a = length line ∧ n = 1).
Proof.
  intros Hlast. unfold is_run. setoid_rewrite lookup_snoc_Some. split.
  - intros (Hn & Hin & Hl & Hr).
    destruct (decide (a + n ≤ length line)) as [Hle|Hgt].
    + left. split_and!; try done.
      * intros j Hj. destruct (Hin j Hj) as [[_ ?]|[? _]]; [done|lia].
      * intros j Hj H. apply (Hl j Hj). left.
        split; [by eapply lookup_lt_Some|done].
      * intros H. apply Hr. left. split; [by eapply lookup_lt_Some|done].
    + right.
      assert (a + n = S (length line)) as Hend.
      { destruct (Hin (a + n - 1)) as [[? _]|[? _]]; lia. }
      destruct (decide (n = 1)) as [->|Hn1]; [lia|]. exfalso.
      destruct (Hin (length line - 1)) as [[_ H]|[? _]]; [lia| |lia].
      apply Hlast. rewrite <- H. symmetry. apply last_lookup_pred. lia.
  - intros [(Hn & Hin & Hl & Hr)|[-> ->]].
    + assert (a + n ≤ length line) as Hb.
      { pose proof (Hin (a + n - 1)) as H. apply lookup_lt_Some in H; lia. }
      split_and!; try done.
      * intros j Hj. left. pose proof (Hin j Hj) as H.
        split; [by eapply lookup_lt_Some|done].
      * intros j Hj [[_ H]|[? _]]; [by apply (Hl j Hj)|lia].
      * intros [[_ H]|[? _]]; [done|].
        apply Hlast. rewrite <- (Hin (a + n - 1)) by lia. symmetry.
        apply last_lookup_pred. lia.
    + split_and!.
      * lia.
      * intros j Hj. right. split; [lia|done].
      * intros j Hj [[_ H]|[? _]]; [|lia].
        apply Hlast. rewrite <- H. symmetry. by apply last_lookup_pred.
      * intros [[? _]|[? _]]; lia.
Qed.

Lemma is_run_snoc_extend line a n :
  last line = Some symbol →
  is_run (line ++ [symbol]) symbol a n
  ↔ (is_run line symbol a n ∧ a + n < length line)
    ∨ (∃ n', n = S n' ∧ a + n' = length line ∧ is_run line symbol a n').
Proof.
  intros Hlast.
  assert (0 < length line) as Hlen.
  { destruct line; [done|simpl; lia]. }
  unfold is_run. setoid_rewrite lookup_snoc_Some. split.
  - intros (Hn & Hin & Hl & Hr).
    destruct (decide (a + n ≤ length line)) as [Hle|Hgt].
    + left.
      assert (a + n < length line) as Hlt.
      { destruct (decide (a + n = length line)); [|lia].
        exfalso. apply Hr. right. done. }
      split_and!; try done.
      * intros j Hj. destruct (Hin j Hj) as [[_ ?]|[? _]]; [done|lia].
      * intros j Hj H. apply (Hl j Hj). left.
        split; [by eapply lookup_lt_Some|done].
      * intros H. apply Hr. left. split; [by eapply lookup_lt_Some|done].
    + right.
      assert (a + n = S (length line)) as Hend.
      { destruct (Hin (a + n - 1)) as [[? _]|[? _]]; lia. }
      destruct n as [|n']; [lia|]. exists n'.
      assert (0 < n') as Hn'.
      { destruct n'; [|lia]. exfalso.
        apply (Hl (length line - 1)); [lia|]. left. split; [lia|].
        rewrite <- Hlast. apply last_lookup_pred. lia. }
      split_and!; try done; try lia.
      * intros j Hj. destruct (Hin j) as [[_ ?]|[? _]]; [lia|done|lia].
      * intros j Hj H. apply (Hl j Hj). left.
        split; [by eapply lookup_lt_Some|done].
      * intros H. apply lookup_lt_Some in H. lia.
  - intros [[(Hn & Hin & Hl & Hr) Hlt]|(n' & -> & Hend & Hn & Hin & Hl & Hr)].
    + split_and!; try done.
      * intros j Hj. left. pose proof (Hin j Hj) as H.
        split; [by eapply lookup_lt_Some|done].
      * intros j Hj [[_ H]|[? _]]; [by apply (Hl j Hj)|lia].
      * intros [[_ H]|[? _]]; [done|lia].
    + split_and!.
      * lia.
      * intros j Hj. destruct (decide (j = length line)) as [->|Hne].
        -- by right.
        -- left. split; [lia|]. apply Hin. lia.
      * intros j Hj [[_ H]|[? _]]; [by apply (Hl j Hj)|lia].
      * intros [[? _]|[? _]]; lia.
Qed.

Lemma is_run_end_unique line a n b m :
  is_run line symbol a n → is_run line symbol b m →
  a + n = b + m → a = b ∧ n = m.
Proof.
  intros (Hn & Hin & Hl & Hr) (Hm & Hin' & Hl' & Hr') Hend.
  destruct (decide (a = b)) as [->|Hne]; [lia|]. exfalso.
  destruct (decide (a < b)).
  - apply (Hl' (b - 1)); [lia|]. apply Hin. lia.
  - apply (Hl (a - 1)); [lia|]. apply Hin'. lia.
Qed.

End runs.

(** *** [buildSymbolSequences] lists the runs, from left to right *)

Lemma seq_inj a n b m : 0 < n → seq a n = seq b m → a = b ∧ n = m.
Proof.
  intros Hn H.
  assert (n = m) as <-.
  { apply (f_equal length) in H. by rewrite !length_seq in H. }
  destruct n; [lia|]. simpl in H. by injection H.
Qed.

Lemma elem_of_run_bound line symbol a n i :
  is_run line symbol a n → i ∈ seq a n → i < length line.
Proof.
  intros Hrun Hi. apply is_run_bound in Hrun. apply elem_of_seq in Hi. lia.
Qed.

Lemma js_index_previous {A} (prefix rest : list A) :
  js_index (prefix ++ rest) (Z.of_nat (length prefix) - 1) = last prefix.
Proof.
  unfold js_index. case_bool_decide as H.
  - rewrite lookup_app_l by lia. rewrite last_lookup. f_equal. lia.
  - destruct prefix; [done|]. simpl in H. lia.
Qed.

Lemma push_to_last_snoc acc r index :
  push_to_last (acc ++ [r]) index = acc ++ [r ++ [index]].
Proof.
  unfold push_to_last. rewrite length_app. simpl.
  rewrite alter_app_r_alt by lia.
  replace (length acc + 1 - 1 - length acc) with 0 by lia. done.
Qed.

Lemma buildSymbolSequences_step_invariant line symbol prefix x rest acc :
  line = prefix ++ x :: rest →
  scan_invariant prefix symbol acc →
  scan_invariant (prefix ++ [x]) symbol
    (buildSymbolSequences_step line symbol acc x (length prefix)).
Proof.
  intros -> [[Hs Hc Hso] Hopen]. unfold buildSymbolSequences_step.
  rewrite js_index_previous.
  case_bool_decide as Hx.
  - subst x. destruct (decide (last prefix = Some symbol)) as [Hl|Hl].
    + destruct (Hopen Hl) as (acc0 & a0 & n0 & -> & Hend & Hrun0).
      rewrite (bool_decide_eq_false_2 (length _ = 0))
        by (rewrite length_app; simpl; lia).
      rewrite (bool_decide_eq_false_2 (last prefix ≠ _)) by auto.
      simpl. rewrite push_to_last_snoc.
      replace (seq a0 n0 ++ [length prefix]) with (seq a0 (S n0))
        by (by rewrite seq_S, Hend).
      assert (is_run (prefix ++ [symbol]) symbol a0 (S n0)) as Hrun0'.
      { apply is_run_snoc_extend; [done|]. right. by exists n0. }
      apply StronglySorted_app in Hso as (Hlt & Hso0 & _).
      assert (∀ r, r ∈ acc0 →
                ∃ a n, r = seq a n ∧ is_run prefix symbol a n
                       ∧ a + n < length prefix) as Hs0.
      { intros r Hr. destruct (Hs r) as (a & n & -> & Hrun).
        { apply elem_of_app. by left. }
        exists a, n. split_and!; [done..|].
        pose proof Hrun as (Hn & _). pose proof Hrun0 as (Hn0 & _).
        assert (a + n - 1 < a0); [|lia].
        apply (Hlt (seq a n) (seq a0 n0)); [done|by left| |];
          apply elem_of_seq; lia. }
      split; [split|].
      * intros r [Hr| ->%list_elem_of_singleton]%elem_of_app.
        -- destruct (Hs0 r Hr) as (a & n & -> & Hrun & Hlen).
           exists a, n. split; [done|]. apply is_run_snoc_extend; auto.
        -- by exists a0, (S n0).
      * intros a n Hrun. apply is_run_snoc_extend in Hrun; [|done].
        destruct Hrun as [[Hrun Hlen]|(n' & -> & Hend' & Hrun)].
        -- pose proof (Hc _ _ Hrun) as Hin. apply elem_of_app in Hin.
           destruct Hin as [Hin|Hin%list_elem_of_singleton];
             [apply elem_of_app; by left|].
           destruct (seq_inj a n a0 n0) as [-> ->];
             [by destruct Hrun|done|lia].
        -- destruct (is_run_end_unique symbol prefix a n' a0 n0) as [-> ->];
             [done|done|lia|].
           apply elem_of_app. right. by left.
      * apply StronglySorted_app. split_and!; [|done|repeat constructor].
        intros r1 r2 Hr1 ->%list_elem_of_singleton i j Hi Hj.
        destruct (Hs0 r1 Hr1) as (a & n & -> & Hrun & Hlen).
        apply elem_of_seq in Hi. apply elem_of_seq in Hj.
        destruct (decide (j = a0 + n0)) as [->|Hne]; [lia|].
        apply (Hlt (seq a n) (seq a0 n0)); [done|by left| |];
          apply elem_of_seq; lia.
      * intros _. exists acc0, a0, (S n0). split_and!; [done| |done].
        rewrite length_app. simpl. lia.
    + rewrite (bool_decide_eq_true_2 (last prefix ≠ _)) by done.
      rewrite orb_true_r.
      assert (is_run (prefix ++ [symbol]) symbol (length prefix) 1) as Hnew.
      { apply is_run_snoc_new; auto. }
      split; [split|].
      * intros r [Hr| ->%list_elem_of_singleton]%elem_of_app.
        -- destruct (Hs r Hr) as (a & n & -> & Hrun).
           exists a, n. split; [done|]. apply is_run_snoc_new; auto.
        -- by exists (length prefix), 1.
      * intros a n Hrun. apply is_run_snoc_new in Hrun; [|done].
        destruct Hrun as [Hrun|[-> ->]].
        -- apply elem_of_app. left. by apply Hc.
        -- apply elem_of_app. right. by left.
      * apply StronglySorted_app. split_and!; [|done|repeat constructor].
        intros r1 r2 Hr1 ->%list_elem_of_singleton i j Hi ->%list_elem_of_singleton.
        destruct (Hs r1 Hr1) as (a & n & -> & Hrun).
        by eapply elem_of_run_bound.
      * intros _. exists acc, (length prefix), 1. split_and!; [done| |done].
        rewrite length_app. simpl. lia.
  - split; [split|].
    + intros r Hr. destruct (Hs r Hr) as (a & n & -> & Hrun).
      exists a, n. split; [done|]. by apply is_run_snoc_ne.
    + intros a n Hrun. apply is_run_snoc_ne in Hrun; [|done]. by apply Hc.
    + done.
    + rewrite last_snoc. congruence.
Qed.

Lemma reduce_from_invariant line symbol rest :
  ∀ prefix acc,
    line = prefix ++ rest →
    scan_invariant prefix symbol acc →
    scan_invariant line symbol
      (reduce_from (buildSymbolSequences_step line symbol) (length prefix)
         acc rest).
Proof.
  induction rest as [|x rest IH]; intros prefix acc Hline Hinv; simpl.
  - rewrite app_nil_r in Hline. by subst.
  - replace (S (length prefix)) with (length (prefix ++ [x]))
      by (rewrite length_app; simpl; lia).
    apply IH.
    + by rewrite <- app_assoc.
    + by eapply buildSymbolSequences_step_invariant.
Qed.

Lemma buildSymbolSequences_spec line symbol :
  sequences_of line symbol (buildSymbolSequences line symbol).
Proof.
  apply (reduce_from_invariant line symbol line [] []); [done|].
  split; [split|done].
  - by intros r Hr%elem_of_nil.
  - intros a n Hrun. pose proof (is_run_bound _ _ _ _ Hrun) as Hb.
    destruct Hrun as [Hn _]. simpl in Hb. lia.
  - constructor.
Qed.

(** *** The first qualifying run *)

Lemma StronglySorted_lookup {A} (R : relation A) l i j x y :
  StronglySorted R l → l !! i = Some x → l !! j = Some y → i < j → R x y.
Proof.
  intros Hs. revert i j.
  induction Hs as [|z l Hs IH Hall]; intros i j Hi Hj Hlt; [done|].
  destruct i as [|i], j as [|j]; simplify_eq/=; try lia.
  - rewrite Forall_lookup in Hall. by eapply Hall.
  - eapply IH; eauto with lia.
Qed.

Lemma StronglySorted_mono {A} (R1 R2 : relation A) l :
  (∀ x y, R1 x y → R2 x y) → StronglySorted R1 l → StronglySorted R2 l.
Proof.
  intros HR. induction 1 as [|z l Hs IH Hall]; constructor; [done|].
  eapply Forall_impl; [exact Hall|]. auto.
Qed.

Lemma findPaylinePositions_Some line symbol sequences positions :
  sequences_of line symbol sequences →
  findPaylinePositions sequences = Some positions →
  ∃ a n, positions = seq a n ∧ leftmost_qualifying_run line symbol a n.
Proof.
  intros [Hs Hc Hso] Hfind. unfold findPaylinePositions in Hfind.
  apply fmap_Some in Hfind as ([i r] & Hfind & ->).
  apply list_find_Some in Hfind as (Hi & Hlen & Hbefore). simpl.
  destruct (Hs r) as (a & n & -> & Hrun); [by eapply list_elem_of_lookup_2|].
  rewrite length_seq in Hlen.
  exists a, n. split; [done|]. split; [done|].
  intros b m [Hrun' Hm].
  pose proof (Hc _ _ Hrun') as [j Hj]%list_elem_of_lookup.
  destruct (decide (j < i)) as [Hji|Hji].
  { exfalso. eapply Hbefore; [done..|]. by rewrite length_seq. }
  destruct (decide (j = i)) as [->|Hne].
  { rewrite Hi in Hj. injection Hj as Hj.
    apply seq_inj in Hj as [-> _]; [done|by destruct Hrun]. }
  assert (run_lt (seq a n) (seq b m)) as Hlt.
  { eapply (StronglySorted_lookup _ _ i j); [done..|lia]. }
  destruct Hrun as (Hn & _). destruct Hrun' as (Hm' & _).
  assert (a < b); [|lia]. apply Hlt; apply elem_of_seq; lia.
Qed.

Lemma findPaylinePositions_None line symbol sequences :
  sequences_of line symbol sequences →
  findPaylinePositions sequences = None →
  ¬ ∃ a n, qualifying_run line symbol a n.
Proof.
  intros [Hs Hc Hso] Hfind (a & n & Hrun & Hn).
  unfold findPaylinePositions in Hfind.
  apply fmap_None, list_find_None in Hfind. rewrite Forall_forall in Hfind.
  apply (Hfind (seq a n)); [by apply Hc|]. by rewrite length_seq.
Qed.

(** *** The [forEach] loop of [call] *)

Lemma foldl_call_visit line symbols acc :
  foldl (call_visit line) acc symbols
  = acc ++ omap (combination_of line) symbols.
Proof.
  revert acc. induction symbols as [|s symbols IH]; intros acc; simpl.
  - by rewrite app_nil_r.
  - rewrite IH. unfold call_visit, combination_of.
    destruct (isElegibleSymbol s); simpl; [|done].
    destruct (findPaylinePositions _); simpl; [|done].
    by rewrite <- app_assoc.
Qed.

Lemma isElegibleSymbol_spec symbol :
  isElegibleSymbol symbol = true
  ↔ symbol ∈ payingSymbols config ∧ symbol ≠ wildSymbol config.
Proof.
  unfold isElegibleSymbol.
  rewrite andb_true_iff, negb_true_iff, bool_decide_eq_false, includes_true.
  tauto.
Qed.

Lemma combination_of_Some line symbol entry :
  combination_of line symbol = Some entry →
  ∃ a n, entry = (symbol, seq a n)
         ∧ symbol ∈ payingSymbols config ∧ symbol ≠ wildSymbol config
         ∧ leftmost_qualifying_run
             (replaceWildToSymbolInLine line symbol) symbol a n.
Proof.
  unfold combination_of. destruct (isElegibleSymbol symbol) eqn:E; [|done].
  apply isElegibleSymbol_spec in E as [Hp Hw].
  intros (positions & Hfind & ->)%fmap_Some.
  eapply findPaylinePositions_Some in Hfind as (a & n & -> & Hrun);
    [|apply buildSymbolSequences_spec].
  by exists a, n.
Qed.

Lemma combination_of_None line symbol :
  combination_of line symbol = None →
  ¬ (symbol ∈ payingSymbols config ∧ symbol ≠ wildSymbol config
     ∧ ∃ a n, qualifying_run
                (replaceWildToSymbolInLine line symbol) symbol a n).
Proof.
  unfold combination_of. intros H (Hp & Hw & Hrun).
  rewrite (proj2 (isElegibleSymbol_spec symbol)) in H by done.
  apply fmap_None in H.
  eapply findPaylinePositions_None in H; [done|apply buildSymbolSequences_spec].
Qed.

(** *** The order of first appearance *)

Lemma first_appearance_elem_of line symbol :
  symbol ∈ line →
  ∃ p, first_appearance line symbol = Some p ∧ p < length line.
Proof.
  intros Hin. unfold first_appearance.
  destruct (list_find_elem_of (λ x, x = symbol) line symbol) as [[p x] Hfind];
    [done..|].
  rewrite Hfind. exists p. split; [done|].
  apply list_find_Some in Hfind as (Hp & _). by eapply lookup_lt_Some.
Qed.

Lemma first_appearance_app_l line rest symbol p :
  first_appearance line symbol = Some p →
  first_appearance (line ++ rest) symbol = Some p.
Proof.
  unfold first_appearance. intros ([p' x] & Hfind & ->)%fmap_Some.
  by rewrite (list_find_app_l _ _ _ _ _ Hfind).
Qed.

Lemma first_appearance_new line symbol :
  symbol ∉ line →
  first_appearance (line ++ [symbol]) symbol = Some (length line).
Proof.
  intros Hnin. unfold first_appearance. rewrite list_find_app_r.
  - simpl. by rewrite decide_True.
  - apply list_find_None, Forall_forall. by intros x Hx ->.
Qed.

Lemma new_Set_sorted line : StronglySorted (appears_before line) (new_Set line).
Proof.
  induction line as [|x line IH] using rev_ind; [constructor|].
  assert (StronglySorted (appears_before (line ++ [x])) (new_Set line)) as IH'.
  { eapply StronglySorted_mono; [|exact IH].
    intros s1 s2 (p1 & p2 & H1 & H2 & Hlt). exists p1, p2.
    split_and!; [by apply first_appearance_app_l..|done]. }
  rewrite new_Set_snoc. unfold set_add.
  destruct (includes (new_Set line) x) eqn:E; [done|].
  apply includes_false in E. rewrite elem_of_new_Set in E.
  apply StronglySorted_app. split_and!; [|done|repeat constructor].
  intros s1 s2 Hs1 ->%list_elem_of_singleton.
  apply (proj1 (elem_of_new_Set _ _)) in Hs1.
  destruct (first_appearance_elem_of line s1 Hs1) as (p1 & Hp1 & Hlt).
  exists p1, (length line). split_and!; [|by apply first_appearance_new|done].
  by apply first_appearance_app_l.
Qed.

Lemma omap_fst_elem_of {A} (f : Z → option (Z * A)) symbols symbol :
  (∀ s entry, f s = Some entry → entry.1 = s) →
  symbol ∈ (omap f symbols).*1 ↔ symbol ∈ symbols ∧ is_Some (f symbol).
Proof.
  intros Hf. rewrite list_elem_of_fmap. setoid_rewrite list_elem_of_omap. split.
  - intros (entry & -> & s & Hs & Hentry).
    rewrite (Hf _ _ Hentry). split; [done|]. by rewrite Hentry.
  - intros [Hs [entry Hentry]]. exists entry.
    split; [by rewrite (Hf _ _ Hentry)|]. by exists symbol.
Qed.

Lemma omap_fst_sorted {A} (R : relation Z) (f : Z → option (Z * A)) symbols :
  (∀ s entry, f s = Some entry → entry.1 = s) →
  StronglySorted R symbols → StronglySorted R (omap f symbols).*1.
Proof.
  intros Hf. induction 1 as [|s symbols Hs IH Hall]; [constructor|].
  simpl. destruct (f s) as [entry|] eqn:E; simpl; [|done].
  constructor; [done|]. rewrite (Hf _ _ E).
  rewrite Forall_forall in *. intros y Hy. apply Hall.
  by apply (omap_fst_elem_of f) in Hy as [Hy _].
Qed.

Lemma StronglySorted_NoDup {A} (R : relation A) l :
  (∀ x, ¬ R x x) → StronglySorted R l → NoDup l.
Proof.
  intros Hirr. induction 1 as [|x l Hs IH Hall]; constructor; [|done].
  rewrite Forall_forall in Hall. intros Hx. by apply (Hirr x), Hall.
Qed.

Lemma appears_before_irrefl line symbol : ¬ appears_before line symbol symbol.
Proof. intros (p1 & p2 & H1 & H2 & Hlt). rewrite H1 in H2. simplify_eq. lia. Qed.

(** *** The substituted line *)

Lemma length_replaceWildToSymbolInLine line symbol :
  length (replaceWildToSymbolInLine line symbol) = length line.
Proof. apply length_fmap. Qed.

(** Every wild position holds the candidate symbol, the other positions are
    unchanged. *)
Lemma replaceWildToSymbolInLine_lookup line symbol i :
  replaceWildToSymbolInLine line symbol !! i
  = (λ x, if decide (x = wildSymbol config) then symbol else x) <$> line !! i.
Proof.
  unfold replaceWildToSymbolInLine. rewrite list_lookup_fmap.
  destruct (line !! i) as [x|]; simpl; [|done].
  case_bool_decide; case_decide; done.
Qed.

Lemma replaceWildToSymbolInLine_lookup_symbol line symbol i :
  replaceWildToSymbolInLine line symbol !! i = Some symbol →
  line !! i = Some symbol ∨ line !! i = Some (wildSymbol config).
Proof.
  rewrite replaceWildToSymbolInLine_lookup.
  destruct (line !! i) as [x|]; simpl; [|done].
  case_decide; intros ?; simplify_eq; auto.
Qed.

(** [replaceWildToSymbolInLine] computes the substituted line, and nothing
    else is one. *)
Lemma wild_substitution_replaceWildToSymbolInLine line symbol substituted :
  wild_substitution line symbol substituted
  ↔ substituted = replaceWildToSymbolInLine line symbol.
Proof.
  split.
  - intros (Hlen & Hwild & Hother). apply list_eq. intros i.
    rewrite replaceWildToSymbolInLine_lookup.
    destruct (line !! i) as [x|] eqn:E; cbn [fmap option_fmap option_map].
    + case_decide as Hx; [subst x; by apply Hwild|by apply (Hother i x)].
    + apply lookup_ge_None in E. apply lookup_ge_None. lia.
  - intros ->. split_and!.
    + apply length_replaceWildToSymbolInLine.
    + intros i Hi. rewrite replaceWildToSymbolInLine_lookup, Hi.
      cbn [fmap option_fmap option_map]. by rewrite decide_True.
    + intros i x Hi Hx. rewrite replaceWildToSymbolInLine_lookup, Hi.
      cbn [fmap option_fmap option_map]. by rewrite decide_False.
Qed.

Lemma combination_of_fst line s entry :
  combination_of line s = Some entry → entry.1 = s.
Proof. by intros (a & n & -> & _)%combination_of_Some. Qed.

(** C3. On a valid payline that is not composed entirely of wilds, [call]
    returns one entry per symbol of the payline that is paying, not the wild,
    and whose substituted line (the payline with every wild replaced by the
    symbol and the other positions unchanged) has a maximal run of at least
    3 positions, and no entry for any other symbol; the entries follow the
    order in which their symbols first appear in the payline; and each entry
    carries the positions [a .. a+n-1] of the leftmost such run of its
    substituted line. *)
Theorem call_winning_combinations (line : list Z) :
  Forall in_universe line → ¬ only_wild line →
  ∃ combinations,
    call line = Returns combinations
    ∧ NoDup combinations.*1
    ∧ (∀ symbol,
         symbol ∈ combinations.*1
         ↔ symbol ∈ line
           ∧ symbol ∈ payingSymbols config ∧ symbol ≠ wildSymbol config
           ∧ ∃ substituted a n,
               wild_substitution line symbol substituted
               ∧ qualifying_run substituted symbol a n)
    ∧ (∀ i j s1 s2,
         combinations.*1 !! i = Some s1 → combinations.*1 !! j = Some s2 →
         i < j → appears_before line s1 s2)
    ∧ (∀ symbol positions,
         (symbol, positions) ∈ combinations →
         ∃ substituted a n,
           wild_substitution line symbol substituted
           ∧ positions = seq a n
           ∧ leftmost_qualifying_run substituted symbol a n).
Proof.
  intros Hv Hnw. rewrite (call_valid _ Hv), bool_decide_eq_false_2 by done.
  eexists. split; [done|]. rewrite foldl_call_visit. simpl.
  assert (StronglySorted (appears_before line)
            (omap (combination_of line) (new_Set line)).*1) as Hsorted.
  { apply omap_fst_sorted; [apply combination_of_fst|apply new_Set_sorted]. }
  split_and!.
  - eapply StronglySorted_NoDup; [apply appears_before_irrefl|done].
  - intros symbol.
    rewrite omap_fst_elem_of by apply combination_of_fst.
    rewrite elem_of_new_Set. split.
    + intros [Hin [entry Hentry]]. split; [done|].
      apply combination_of_Some in Hentry
        as (a & n & _ & Hp & Hw & Hrun & _).
      split_and!; [done..|].
      exists (replaceWildToSymbolInLine line symbol), a, n.
      split; [by apply wild_substitution_replaceWildToSymbolInLine|done].
    + intros (Hin & Hp & Hw & substituted & a & n & Hsub & Hrun).
      apply wild_substitution_replaceWildToSymbolInLine in Hsub as ->.
      split; [done|].
      destruct (combination_of line symbol) eqn:E; [done|].
      apply combination_of_None in E. destruct E. eauto.
  - intros i j s1 s2 Hi Hj Hlt. by eapply StronglySorted_lookup.
  - intros symbol positions (s & Hs & Hentry)%list_elem_of_omap.
    apply combination_of_Some in Hentry as (a & n & [= -> ->] & _ & _ & Hrun).
    eexists _, a, n.
    split; [by apply wild_substitution_replaceWildToSymbolInLine|done].
Qed.

(** C4. On a valid payline that is not composed entirely of wilds, the
    symbol of every returned combination is a paying symbol, is not the wild
    symbol and is not a non-paying symbol. *)
Theorem call_symbols_are_eligible (line : list Z) :
  Forall in_universe line → ¬ only_wild line →
  ∃ combinations,
    call line = Returns combinations
    ∧ ∀ symbol positions,
        (symbol, positions) ∈ combinations →
        symbol ∈ payingSymbols config
        ∧ symbol ≠ wildSymbol config
        ∧ symbol ∉ nonPayingSymbols config.
Proof.
  intros Hv Hnw. rewrite (call_valid _ Hv), bool_decide_eq_false_2 by done.
  eexists. split; [done|]. rewrite foldl_call_visit. simpl.
  intros symbol positions (s & Hs & Hentry)%list_elem_of_omap.
  apply combination_of_Some in Hentry as (a & n & [= -> ->] & Hp & Hw & _).
  split_and!; [done..|].
  revert Hp. simpl. rewrite !elem_of_cons, !elem_of_nil. lia.
Qed.

(** C5. The empty payline yields the empty result.  A valid payline shorter
    than the minimum sequence length yields the single all-wild combination
    when it is composed entirely of wilds and the empty result otherwise. *)
Theorem call_short_payline (line : list Z) :
  Forall in_universe line → length line < minSequenceLength config →
  call line
  = Returns (if decide (only_wild line)
             then [(wildSymbol config, seq 0 (length line))]
             else [])
  ∧ (line = [] → call line = Returns []).
Proof.
  intros Hv Hshort.
  assert (call line
          = Returns (if decide (only_wild line)
                     then [(wildSymbol config, seq 0 (length line))]
                     else [])) as Hcall.
  { rewrite (call_valid _ Hv). case_decide as Hw.
    { by rewrite bool_decide_eq_true_2. }
    rewrite bool_decide_eq_false_2 by done.
    rewrite foldl_call_visit. simpl. f_equal.
    destruct (omap _ _) as [|entry entries] eqn:E; [done|]. exfalso.
    assert (entry ∈ omap (combination_of line) (new_Set line)) as Hentry
      by (rewrite E; left).
    apply list_elem_of_omap in Hentry as (s & _ & Hentry).
    apply combination_of_Some in Hentry
      as (a & n & _ & _ & _ & [Hrun Hn] & _).
    apply is_run_bound in Hrun.
    rewrite length_replaceWildToSymbolInLine in Hrun. lia. }
  split; [done|]. intros ->. rewrite Hcall. by case_decide as Hw; [destruct Hw|].
Qed.

(** C6. On a valid payline, the positions of every returned combination are
    [a; a+1; ...; a+n-1] for some [a] and some [n > 0]: a non-empty sequence
    of consecutive, strictly increasing indices; they are within the bounds
    of the payline; and at each of them the payline holds the combination's
    symbol or the wild symbol. *)
Theorem call_positions_are_a_run (line : list Z) :
  Forall in_universe line →
  ∃ combinations,
    call line = Returns combinations
    ∧ ∀ symbol positions,
        (symbol, positions) ∈ combinations →
        ∃ a n, positions = seq a n ∧ 0 < n ∧ a + n ≤ length line
               ∧ ∀ p, p ∈ positions →
                      line !! p = Some symbol
                      ∨ line !! p = Some (wildSymbol config).
Proof.
  intros Hv. rewrite (call_valid _ Hv). case_bool_decide as Hw.
  - eexists. split; [done|].
    intros symbol positions [= -> ->]%list_elem_of_singleton.
    destruct Hw as [Hne Hall]. exists 0, (length line). split_and!; [done| |done|].
    + destruct line; [done|simpl; lia].
    + intros p [_ Hp]%elem_of_seq. right.
      destruct (lookup_lt_is_Some_2 line p) as [x Hx]; [lia|].
      rewrite Forall_lookup in Hall. by rewrite Hx, (Hall _ _ Hx).
  - eexists. split; [done|]. rewrite foldl_call_visit. simpl.
    intros symbol positions (s & Hs & Hentry)%list_elem_of_omap.
    apply combination_of_Some in Hentry
      as (a & n & [= -> ->] & _ & _ & [Hrun _] & _).
    exists a, n. pose proof (is_run_bound _ _ _ _ Hrun) as Hb.
    rewrite length_replaceWildToSymbolInLine in Hb.
    destruct Hrun as (Hn & Hin & _). split_and!; [done..|].
    intros p Hp%elem_of_seq.
    apply replaceWildToSymbolInLine_lookup_symbol, Hin. lia.
Qed.

(** *** The theorems at concrete paylines *)

Lemma valid_2_0_0_0_1_1 : Forall in_universe [2; 0; 0; 0; 1; 1]%Z.
Proof. repeat constructor; apply in_universe_range; lia. Qed.

Lemma not_only_wild_2_0_0_0_1_1 : ¬ only_wild [2; 0; 0; 0; 1; 1]%Z.
Proof. intros [_ H]. by apply Forall_cons in H as [H _]. Qed.

Lemma call_winning_combinations_witness :
  ∃ combinations,
    call [2; 0; 0; 0; 1; 1]%Z = Returns combinations
    ∧ NoDup combinations.*1
    ∧ (∀ symbol,
         symbol ∈ combinations.*1
         ↔ symbol ∈ [2; 0; 0; 0; 1; 1]%Z
           ∧ symbol ∈ payingSymbols config ∧ symbol ≠ wildSymbol config
           ∧ ∃ substituted a n,
               wild_substitution [2; 0; 0; 0; 1; 1]%Z symbol substituted
               ∧ qualifying_run substituted symbol a n)
    ∧ (∀ i j s1 s2,
         combinations.*1 !! i = Some s1 → combinations.*1 !! j = Some s2 →
         i < j → appears_before [2; 0; 0; 0; 1; 1]%Z s1 s2)
    ∧ (∀ symbol positions,
         (symbol, positions) ∈ combinations →
         ∃ substituted a n,
           wild_substitution [2; 0; 0; 0; 1; 1]%Z symbol substituted
           ∧ positions = seq a n
           ∧ leftmost_qualifying_run substituted symbol a n).
Proof.
  exact (call_winning_combinations [2; 0; 0; 0; 1; 1]%Z
           valid_2_0_0_0_1_1 not_only_wild_2_0_0_0_1_1).
Defined.

Lemma call_symbols_are_eligible_witness :
  ∃ combinations,
    call [2; 0; 0; 0; 1; 1]%Z = Returns combinations
    ∧ ∀ symbol positions,
        (symbol, positions) ∈ combinations →
        symbol ∈ payingSymbols config
        ∧ symbol ≠ wildSymbol config
        ∧ symbol ∉ nonPayingSymbols config.
Proof.
  exact (call_symbols_are_eligible [2; 0; 0; 0; 1; 1]%Z
           valid_2_0_0_0_1_1 not_only_wild_2_0_0_0_1_1).
Defined.

Lemma valid_0_0 : Forall in_universe [0; 0]%Z.
Proof. repeat constructor; apply in_universe_range; lia. Qed.

Lemma short_0_0 : length [0; 0]%Z < minSequenceLength config.
Proof. simpl. lia. Qed.

Lemma call_short_payline_witness :
  call [0; 0]%Z
  = Returns (if decide (only_wild [0; 0]%Z)
             then [(wildSymbol config, seq 0 (length [0; 0]%Z))]
             else [])
  ∧ ([0; 0]%Z = [] → call [0; 0]%Z = Returns []).
Proof. exact (call_short_payline [0; 0]%Z valid_0_0 short_0_0). Defined.

Lemma call_positions_are_a_run_witness :
  ∃ combinations,
    call [2; 0; 0; 0; 1; 1]%Z = Returns combinations
    ∧ ∀ symbol positions,
        (symbol, positions) ∈ combinations →
        ∃ a n, positions = seq a n ∧ 0 < n
               ∧ a + n ≤ length [2; 0; 0; 0; 1; 1]%Z
               ∧ ∀ p, p ∈ positions →
                      [2; 0; 0; 0; 1; 1]%Z !! p = Some symbol
                      ∨ [2; 0; 0; 0; 1; 1]%Z !! p = Some (wildSymbol config).
Proof.
  exact (call_positions_are_a_run [2; 0; 0; 0; 1; 1]%Z valid_2_0_0_0_1_1).
Defined.

Example call_short_payline_cases :
  call [] = Returns []
  ∧ call [0]%Z = Returns [(0%Z, [0])]
  ∧ call [1; 0]%Z = Returns []
  ∧ call [10; 10]%Z = Returns [].
Proof. vm_compute. done. Qed.

(** *** The concrete cases of the specification *)

Example call_run_of_three :
  call [1; 1; 1; 5; 6]%Z = Returns [(1%Z, [0; 1; 2])].
Proof. vm_compute. reflexivity. Qed.

Example call_all_wild :
  call [0; 0; 0; 0]%Z = Returns [(0%Z, [0; 1; 2; 3])].
Proof. vm_compute. reflexivity. Qed.

Example call_wild_bridges :
  call [1; 0; 1; 5; 6]%Z = Returns [(1%Z, [0; 1; 2])].
Proof. vm_compute. reflexivity. Qed.

Example call_non_paying :
  call [10; 10; 10; 1; 1]%Z = Returns [].
Proof. vm_compute. reflexivity. Qed.

Example call_invalid :
  call [1; 1; 99]%Z = Throws InvalidSymbolError.
Proof. vm_compute. reflexivity. Qed.

Example call_two_symbols :
  call [2; 0; 0; 0; 1; 1]%Z
  = Returns [(2%Z, [0; 1; 2; 3]); (1%Z, [1; 2; 3; 4; 5])].
Proof. vm_compute. reflexivity. Qed.

End WinningCombinationsFacts.

Module WinningCombinationsMore.
Import WinningCombinations WinningCombinationsFacts.

(** *** [buildSymbolSequences] on its own *)

Lemma push_to_last_join acc index :
  acc ≠ [] → mjoin (push_to_last acc index) = mjoin acc ++ [index].
Proof.
  intros Hne. destruct acc as [|r acc _] using rev_ind; [done|].
  rewrite push_to_last_snoc, !join_app. simpl.
  by rewrite !app_nil_r, app_assoc.
Qed.

Lemma buildSymbolSequences_step_join line symbol acc x index :
  mjoin (buildSymbolSequences_step line symbol acc x index)
  = mjoin acc ++ (if decide (x = symbol) then [index] else []).
Proof.
  unfold buildSymbolSequences_step. case_bool_decide as Hx.
  - rewrite decide_True by done.
    destruct (bool_decide (length acc = 0)) eqn:E; simpl.
    + by rewrite join_app.
    + destruct (bool_decide (js_index _ _ ≠ _)).
      * by rewrite join_app.
      * apply push_to_last_join. apply bool_decide_eq_false in E.
        by destruct acc.
  - rewrite decide_False by done. by rewrite app_nil_r.
Qed.

Lemma reduce_from_join line symbol rest :
  ∀ prefix acc,
    line = prefix ++ rest →
    mjoin acc
    = filter (λ i, line !! i = Some symbol) (seq 0 (length prefix)) →
    mjoin (reduce_from (buildSymbolSequences_step line symbol)
             (length prefix) acc rest)
    = positions_of line symbol.
Proof.
  induction rest as [|x rest IH]; intros prefix acc Hline Hacc; simpl.
  - rewrite app_nil_r in Hline. by subst.
  - replace (S (length prefix)) with (length (prefix ++ [x]))
      by (rewrite length_app; simpl; lia).
    apply IH; [by rewrite <- app_assoc|].
    rewrite buildSymbolSequences_step_join, Hacc, length_app. simpl.
    rewrite Nat.add_1_r, seq_S, filter_app. f_equal. simpl.
    rewrite filter_cons, filter_nil, Hline, list_lookup_middle by done.
    repeat case_decide; congruence.
Qed.

Lemma join_buildSymbolSequences line symbol :
  mjoin (buildSymbolSequences line symbol) = positions_of line symbol.
Proof. by apply (reduce_from_join line symbol line [] []). Qed.

Lemma elem_of_positions_of line symbol p :
  p ∈ positions_of line symbol ↔ line !! p = Some symbol.
Proof.
  unfold positions_of. rewrite list_elem_of_filter, elem_of_seq. split.
  - by intros [? _].
  - intros H. split; [done|]. apply lookup_lt_Some in H. lia.
Qed.

(** X1. Flattened, the sequences of [buildSymbolSequences] are the positions
    that hold the symbol, each once, in increasing order: no position of the
    symbol is lost or listed twice, and no other position is listed. *)
Theorem buildSymbolSequences_flattened (line : list Z) (symbol : Z) :
  mjoin (buildSymbolSequences line symbol)
  = filter (λ i, line !! i = Some symbol) (seq 0 (length line))
  ∧ NoDup (mjoin (buildSymbolSequences line symbol))
  ∧ ∀ p, p ∈ mjoin (buildSymbolSequences line symbol)
         ↔ line !! p = Some symbol.
Proof.
  rewrite join_buildSymbolSequences. split_and!.
  - done.
  - apply NoDup_filter, NoDup_seq.
  - apply elem_of_positions_of.
Qed.

(** X2. The sequences of [buildSymbolSequences] are exactly the maximal runs
    of the symbol in the line, and they come from left to right: every
    position of an earlier sequence is before every position of a later
    one. *)
Theorem buildSymbolSequences_lists_the_runs (line : list Z) (symbol : Z) :
  (∀ r, r ∈ buildSymbolSequences line symbol
        ↔ ∃ a n, r = seq a n ∧ is_run line symbol a n)
  ∧ ∀ i j r1 r2 p q,
      buildSymbolSequences line symbol !! i = Some r1 →
      buildSymbolSequences line symbol !! j = Some r2 →
      i < j → p ∈ r1 → q ∈ r2 → p < q.
Proof.
  destruct (buildSymbolSequences_spec line symbol) as [Hs Hc Hso]. split.
  - intros r. split; [apply Hs|]. intros (a & n & -> & Hrun). by apply Hc.
  - intros i j r1 r2 p q Hi Hj Hlt Hp Hq.
    by apply (StronglySorted_lookup _ _ _ _ _ _ Hso Hi Hj Hlt).
Qed.

(** A position that holds the symbol lies in one of its maximal runs. *)
Lemma run_around line symbol p :
  line !! p = Some symbol →
  ∃ a n, is_run line symbol a n ∧ a ≤ p < a + n.
Proof.
  intros Hp%elem_of_positions_of.
  rewrite <- join_buildSymbolSequences in Hp.
  apply list_elem_of_join in Hp as (r & Hpr & Hr).
  destruct (buildSymbolSequences_spec line symbol) as [Hs _ _].
  destruct (Hs r Hr) as (a & n & -> & Hrun).
  exists a, n. split; [done|]. by apply elem_of_seq in Hpr.
Qed.

(** *** [replaceWildToSymbolInLine] on its own *)

Lemma replaceWildToSymbolInLine_no_wild line symbol :
  wildSymbol config ∉ line → replaceWildToSymbolInLine line symbol = line.
Proof.
  intros Hnw. unfold replaceWildToSymbolInLine.
  rewrite <- (list_fmap_id line) at 2. apply list_fmap_ext.
  intros i x Hx%list_elem_of_lookup_2. simpl.
  case_bool_decide as H; [done|]. exfalso. apply Hnw.
  destruct (decide (x = wildSymbol config)) as [<-|?]; done.
Qed.

(** X3. [replaceWildToSymbolInLine] keeps the length of the line and every
    position that does not hold the wild; it is idempotent; when the
    candidate is not the wild itself, no wild is left in the result; and a
    line without wilds is returned as it is. *)
Theorem replaceWildToSymbolInLine_properties (line : list Z) (symbol : Z) :
  length (replaceWildToSymbolInLine line symbol) = length line
  ∧ (∀ i x, line !! i = Some x → x ≠ wildSymbol config →
            replaceWildToSymbolInLine line symbol !! i = Some x)
  ∧ replaceWildToSymbolInLine (replaceWildToSymbolInLine line symbol) symbol
    = replaceWildToSymbolInLine line symbol
  ∧ (symbol ≠ wildSymbol config →
     wildSymbol config ∉ replaceWildToSymbolInLine line symbol)
  ∧ (wildSymbol config ∉ line → replaceWildToSymbolInLine line symbol = line).
Proof.
  split_and!.
  - apply length_replaceWildToSymbolInLine.
  - intros i x Hi Hx. rewrite replaceWildToSymbolInLine_lookup, Hi. simpl.
    by rewrite decide_False.
  - unfold replaceWildToSymbolInLine. rewrite <- list_fmap_compose.
    apply list_fmap_ext. intros i x _. simpl.
    repeat case_bool_decide; congruence.
  - intros Hs [i Hi]%list_elem_of_lookup.
    rewrite replaceWildToSymbolInLine_lookup in Hi.
    destruct (line !! i) as [x|]; [|done]. cbn [fmap option_fmap option_map] in Hi.
    case_decide; simplify_eq; done.
  - apply replaceWildToSymbolInLine_no_wild.
Qed.

(** *** [validateSymbols] on its own *)

(** X4. [validateSymbols] returns [true] exactly when every symbol is in the
    universe and throws [InvalidSymbolError] exactly when some symbol is
    not; it never returns [false]; and validating the distinct symbols of a
    line, as [call] does, is validating the line. *)
Theorem validateSymbols_spec (symbols : list Z) :
  (validateSymbols symbols = Returns true ↔ Forall in_universe symbols)
  ∧ (validateSymbols symbols = Throws InvalidSymbolError
     ↔ ∃ symbol, symbol ∈ symbols ∧ ¬ in_universe symbol)
  ∧ validateSymbols symbols ≠ Returns false
  ∧ validateSymbols (new_Set symbols) = validateSymbols symbols.
Proof.
  pose proof (validateSymbols_returns symbols) as Hr.
  split_and!.
  - done.
  - rewrite <- Exists_exists. split.
    + intros Ht. apply not_Forall_Exists; [intros ?; apply _|].
      intros Hv%Hr. congruence.
    + intros He. destruct (validateSymbols_cases symbols) as [H|H]; [|done].
      apply Hr in H. apply Exists_exists in He as (s & Hs & Hn).
      rewrite Forall_forall in H. by destruct (Hn (H s Hs)).
  - by destruct (validateSymbols_cases symbols) as [-> | ->].
  - pose proof (validateSymbols_returns (new_Set symbols)) as Hr'.
    rewrite Forall_new_Set in Hr'.
    destruct (validateSymbols_cases symbols) as [H|H],
      (validateSymbols_cases (new_Set symbols)) as [H'|H']; try congruence.
    + apply Hr, Hr' in H. congruence.
    + apply Hr', Hr in H'. congruence.
Qed.

(** *** [call] *)

Lemma call_loop line :
  Forall in_universe line → ¬ only_wild line →
  call line = Returns (omap (combination_of line) (new_Set line)).
Proof.
  intros Hv Hnw. rewrite (call_valid _ Hv), bool_decide_eq_false_2 by done.
  by rewrite foldl_call_visit.
Qed.

Lemma elem_of_combinations line (symbols : list Z) symbol positions :
  (symbol, positions) ∈ omap (combination_of line) symbols →
  symbol ∈ symbols ∧ combination_of line symbol = Some (symbol, positions).
Proof.
  intros (s & Hin & Hs)%list_elem_of_omap.
  pose proof (combination_of_fst _ _ _ Hs) as H. simpl in H. by subst.
Qed.

Lemma paying_not_wild symbol :
  symbol ∈ payingSymbols config → symbol ≠ wildSymbol config.
Proof. simpl. rewrite !elem_of_cons, elem_of_nil. lia. Qed.

Lemma no_wild_not_only_wild line : wildSymbol config ∉ line → ¬ only_wild line.
Proof.
  intros Hnw [Hne Hall]. destruct line as [|x line]; [done|].
  apply Forall_cons in Hall as [-> _]. apply Hnw. left.
Qed.

(** X5. On a valid payline every returned combination has at least
    [minSequenceLength] (3) positions, except the single combination of a
    payline composed entirely of wilds, which has as many positions as the
    payline has symbols. *)
Theorem call_combination_lengths (line : list Z) :
  Forall in_universe line →
  ∃ combinations,
    call line = Returns combinations
    ∧ ∀ symbol positions,
        (symbol, positions) ∈ combinations →
        (only_wild line ∧ symbol = wildSymbol config
         ∧ length positions = length line)
        ∨ (¬ only_wild line ∧ minSequenceLength config ≤ length positions).
Proof.
  intros Hv. destruct (decide (only_wild line)) as [Hw|Hw].
  - rewrite (call_valid _ Hv), bool_decide_eq_true_2 by done.
    eexists. split; [done|].
    intros symbol positions [= -> ->]%list_elem_of_singleton. left.
    split_and!; [done..|]. apply length_seq.
  - rewrite (call_loop _ Hv Hw). eexists. split; [done|].
    intros symbol positions [_ Hentry]%elem_of_combinations. right.
    apply combination_of_Some in Hentry
      as (a & n & [= ->] & _ & _ & [_ Hn] & _).
    by rewrite length_seq.
Qed.

Lemma call_combination_lengths_witness :
  ∃ combinations,
    call [2; 0; 0; 0; 1; 1]%Z = Returns combinations
    ∧ ∀ symbol positions,
        (symbol, positions) ∈ combinations →
        (only_wild [2; 0; 0; 0; 1; 1]%Z ∧ symbol = wildSymbol config
         ∧ length positions = length [2; 0; 0; 0; 1; 1]%Z)
        ∨ (¬ only_wild [2; 0; 0; 0; 1; 1]%Z
           ∧ minSequenceLength config ≤ length positions).
Proof.
  exact (call_combination_lengths [2; 0; 0; 0; 1; 1]%Z valid_2_0_0_0_1_1).
Defined.

(** X6. Wilds pay only next to a paying symbol: a valid payline that holds
    no paying symbol and is not composed entirely of wilds yields no
    combination, however many wilds it holds. *)
Theorem call_without_paying_symbol (line : list Z) :
  Forall in_universe line → ¬ only_wild line →
  (∀ symbol, symbol ∈ line → symbol ∉ payingSymbols config) →
  call line = Returns [].
Proof.
  intros Hv Hw Hnp. rewrite (call_loop _ Hv Hw). f_equal.
  destruct (omap _ _) as [|[symbol positions] entries] eqn:E; [done|].
  exfalso.
  assert ((symbol, positions) ∈ omap (combination_of line) (new_Set line))
    as [Hin Hentry]%elem_of_combinations by (rewrite E; left).
  apply (proj1 (elem_of_new_Set _ _)) in Hin.
  apply combination_of_Some in Hentry as (a & n & _ & Hp & _).
  exact (Hnp symbol Hin Hp).
Qed.

Lemma call_without_paying_symbol_witness :
  call [10; 0; 0; 0; 0]%Z = Returns [].
Proof.
  apply call_without_paying_symbol.
  - repeat constructor; apply in_universe_range; lia.
  - intros [_ H]. by apply Forall_cons in H as [H _].
  - intros symbol Hin. simpl. rewrite !elem_of_cons, elem_of_nil in *. lia.
Defined.

(** X7. Three wilds in a row pay every paying symbol of the payline: on a
    valid payline that is not composed entirely of wilds and holds the wild
    at three consecutive positions, every paying symbol that occurs in the
    payline has a combination in the result. *)
Theorem call_three_wilds_pay_all (line : list Z) (p : nat) (symbol : Z) :
  Forall in_universe line → ¬ only_wild line →
  line !! p = Some (wildSymbol config) →
  line !! (p + 1) = Some (wildSymbol config) →
  line !! (p + 2) = Some (wildSymbol config) →
  symbol ∈ line → symbol ∈ payingSymbols config →
  ∃ combinations positions,
    call line = Returns combinations ∧ (symbol, positions) ∈ combinations.
Proof.
  intros Hv Hw H0 H1 H2 Hin Hp. rewrite (call_loop _ Hv Hw).
  assert (∀ q, line !! q = Some (wildSymbol config) →
               replaceWildToSymbolInLine line symbol !! q = Some symbol)
    as Hsub.
  { intros q Hq. rewrite replaceWildToSymbolInLine_lookup, Hq.
    cbn [fmap option_fmap option_map]. by rewrite decide_True. }
  destruct (run_around _ _ _ (Hsub _ H0)) as (a & n & Hrun & Ha).
  assert (minSequenceLength config ≤ n) as Hn.
  { destruct Hrun as (_ & _ & _ & Hr). simpl.
    destruct (decide (a + n = p + 1)) as [E|?];
      [by rewrite E in Hr; destruct (Hr (Hsub _ H1))|].
    destruct (decide (a + n = p + 2)) as [E|?];
      [by rewrite E in Hr; destruct (Hr (Hsub _ H2))|].
    lia. }
  destruct (combination_of line symbol) as [[s positions]|] eqn:E.
  - pose proof (combination_of_fst _ _ _ E) as Hs. simpl in Hs. subst s.
    eexists _, positions. split; [done|].
    apply list_elem_of_omap. exists symbol.
    split; [by apply elem_of_new_Set|done].
  - exfalso. apply (combination_of_None _ _ E).
    split_and!; [done|by apply paying_not_wild|]. by exists a, n.
Qed.

Lemma call_three_wilds_pay_all_witness :
  ∃ combinations positions,
    call [1; 0; 0; 0; 10; 2]%Z = Returns combinations
    ∧ (2%Z, positions) ∈ combinations.
Proof.
  apply (call_three_wilds_pay_all [1; 0; 0; 0; 10; 2]%Z 1 2%Z).
  - repeat constructor; apply in_universe_range; lia.
  - intros [_ H]. by apply Forall_cons in H as [H _].
  - reflexivity.
  - reflexivity.
  - reflexivity.
  - rewrite !elem_of_cons. auto 10.
  - simpl. rewrite !elem_of_cons. auto.
Defined.

(** X8. Without wilds nothing is paid twice: on a valid payline that holds
    no wild, the positions of every combination hold the combination's own
    symbol, and two combinations that share a position are the same
    combination. *)
Theorem call_without_wilds (line : list Z) :
  Forall in_universe line → wildSymbol config ∉ line →
  ∃ combinations,
    call line = Returns combinations
    ∧ (∀ symbol positions p,
         (symbol, positions) ∈ combinations → p ∈ positions →
         line !! p = Some symbol)
    ∧ (∀ s1 ps1 s2 ps2 p,
         (s1, ps1) ∈ combinations → (s2, ps2) ∈ combinations →
         p ∈ ps1 → p ∈ ps2 → s1 = s2 ∧ ps1 = ps2).
Proof.
  intros Hv Hnw.
  rewrite (call_loop _ Hv (no_wild_not_only_wild _ Hnw)).
  eexists. split; [done|].
  assert (∀ symbol positions p,
            (symbol, positions)
              ∈ omap (combination_of line) (new_Set line) →
            p ∈ positions → line !! p = Some symbol) as Hown.
  { intros symbol positions p [_ Hentry]%elem_of_combinations Hp.
    apply combination_of_Some in Hentry
      as (a & n & [= ->] & _ & _ & [[Hrun _] _]).
    rewrite replaceWildToSymbolInLine_no_wild in Hrun by done.
    destruct Hrun as (_ & Hin & _). apply Hin. by apply elem_of_seq in Hp. }
  split; [done|].
  intros s1 ps1 s2 ps2 p Hc1 Hc2 Hp1 Hp2.
  pose proof (Hown _ _ _ Hc1 Hp1) as E1.
  pose proof (Hown _ _ _ Hc2 Hp2) as E2.
  rewrite E1 in E2. injection E2 as <-. split; [done|].
  apply elem_of_combinations in Hc1 as [_ Hc1].
  apply elem_of_combinations in Hc2 as [_ Hc2]. congruence.
Qed.

Lemma call_without_wilds_witness :
  ∃ combinations,
    call [1; 1; 1; 2; 2; 2]%Z = Returns combinations
    ∧ (∀ symbol positions p,
         (symbol, positions) ∈ combinations → p ∈ positions →
         [1; 1; 1; 2; 2; 2]%Z !! p = Some symbol)
    ∧ (∀ s1 ps1 s2 ps2 p,
         (s1, ps1) ∈ combinations → (s2, ps2) ∈ combinations →
         p ∈ ps1 → p ∈ ps2 → s1 = s2 ∧ ps1 = ps2).
Proof.
  apply call_without_wilds.
  - repeat constructor; apply in_universe_range; lia.
  - simpl. rewrite !elem_of_cons, elem_of_nil. lia.
Defined.

(** With a wild, one position can be paid to two symbols. *)
Example call_wild_paid_twice :
  call [1; 1; 0; 2; 2]%Z
  = Returns [(1%Z, [0; 1; 2]); (2%Z, [2; 3; 4])].
Proof. vm_compute. reflexivity. Qed.

Lemma omap_none {A B} (f : A → option B) (l : list A) :
  (∀ z, z ∈ l → f z = None) → omap f l = [].
Proof.
  induction l as [|z l IH]; intros Hnone; [done|]. simpl.
  rewrite (Hnone z) by left. apply IH. intros w Hw. apply Hnone. by right.
Qed.

Lemma omap_single {A B} `{EqDecision A} (f : A → option B) (l : list A) x y :
  NoDup l → x ∈ l → f x = Some y → (∀ z, z ∈ l → z ≠ x → f z = None) →
  omap f l = [y].
Proof.
  induction l as [|z l IH]; intros Hnd Hin Hx Hothers; [by inv Hin|].
  apply NoDup_cons in Hnd as [Hz Hnd]. simpl.
  destruct (decide (z = x)) as [->|Hne].
  - rewrite Hx. f_equal. apply omap_none. intros w Hw.
    apply Hothers; [by right|]. by intros ->.
  - rewrite (Hothers z) by (done || left). apply IH; [done| |done|].
    + by apply elem_of_cons in Hin as [?|?].
    + intros w Hw ?. apply Hothers; [by right|done].
Qed.

(** X9. A line won from end to end: on a payline of at least 3 symbols that
    holds one paying symbol, at least once, and otherwise only wilds, [call]
    returns the single combination of that symbol with every position of
    the payline. *)
Theorem call_full_line (line : list Z) (symbol : Z) :
  symbol ∈ payingSymbols config → symbol ∈ line →
  Forall (λ x, x = symbol ∨ x = wildSymbol config) line →
  minSequenceLength config ≤ length line →
  call line = Returns [(symbol, seq 0 (length line))].
Proof.
  intros Hp Hin Hall Hlen. pose proof (paying_not_wild _ Hp) as Hnw.
  rewrite Forall_forall in Hall.
  rewrite call_loop; first last.
  - intros [_ Hw]. rewrite Forall_forall in Hw. by apply Hnw, Hw.
  - apply Forall_forall. intros x [->| ->]%Hall; [right; by left|by left].
  - f_equal.
    set (L := replaceWildToSymbolInLine line symbol).
    assert (∀ i, i < length line → L !! i = Some symbol) as HL.
    { intros i Hi. unfold L. rewrite replaceWildToSymbolInLine_lookup.
      destruct (lookup_lt_is_Some_2 line i Hi) as [x Hx]. rewrite Hx.
      cbn [fmap option_fmap option_map].
      destruct (Hall x (list_elem_of_lookup_2 _ _ _ Hx)) as [->| ->];
        case_decide; done. }
    assert (length L = length line) as HlenL
      by apply length_replaceWildToSymbolInLine.
    assert (is_run L symbol 0 (length line)) as Hrun.
    { split_and!.
      - simpl in Hlen. lia.
      - intros j Hj. apply HL. lia.
      - done.
      - intros H%lookup_lt_Some. simpl in H. lia. }
    apply (omap_single _ _ symbol).
    + apply NoDup_new_Set.
    + by apply elem_of_new_Set.
    + destruct (combination_of line symbol) as [entry|] eqn:E.
      * apply combination_of_Some in E
          as (a & n & -> & _ & _ & [[Hrun' _] _]). fold L in Hrun'.
        pose proof (is_run_bound _ _ _ _ Hrun') as Hb.
        destruct Hrun' as (Hn & _ & Hl & Hr).
        destruct a as [|a].
        -- destruct (decide (n = length line)) as [->|?]; [done|].
           destruct Hr. apply HL. simpl in *. lia.
        -- destruct (Hl a eq_refl). apply HL. lia.
      * exfalso. apply (combination_of_None _ _ E).
        split_and!; [done..|]. by exists 0, (length line).
    + intros z Hz Hne. apply (proj1 (elem_of_new_Set _ _)) in Hz.
      destruct (Hall z Hz) as [->| ->]; [done|].
      reflexivity.
Qed.

Lemma call_full_line_witness :
  call [0; 3; 0; 3; 0]%Z = Returns [(3%Z, seq 0 5)].
Proof.
  apply (call_full_line [0; 3; 0; 3; 0]%Z 3%Z).
  - simpl. repeat constructor.
  - repeat constructor.
  - repeat (constructor; [by auto|]). constructor.
  - simpl. lia.
Defined.

(** *** The refactored copies *)

(** X10. [getPaylinePositionsBySymbol] returns the positions of the leftmost
    maximal run of at least 3 positions that the symbol has in the
    substituted line (the line with every wild replaced by the symbol and
    the other positions unchanged), and [null] exactly when the substituted
    line has no such run. *)
Theorem getPaylinePositionsBySymbol_spec (line : list Z) (symbol : Z) :
  match WinningCombinationsRefactored.getPaylinePositionsBySymbol line symbol
  with
  | Some positions =>
      ∃ substituted a n,
        wild_substitution line symbol substituted
        ∧ positions = seq a n
        ∧ leftmost_qualifying_run substituted symbol a n
  | None =>
      ¬ ∃ substituted a n,
          wild_substitution line symbol substituted
          ∧ qualifying_run substituted symbol a n
  end.
Proof.
  unfold WinningCombinationsRefactored.getPaylinePositionsBySymbol,
    WinningCombinationsRefactored.array_or_null.
  destruct (findPaylinePositions _) as [positions|] eqn:E.
  - eapply findPaylinePositions_Some in E as (a & n & -> & Hrun);
      [|apply buildSymbolSequences_spec].
    exists (replaceWildToSymbolInLine line symbol), a, n.
    split; [by apply wild_substitution_replaceWildToSymbolInLine|done].
  - intros (substituted & a & n & Hsub & Hrun).
    apply wild_substitution_replaceWildToSymbolInLine in Hsub as ->.
    eapply findPaylinePositions_None in E;
      [|apply buildSymbolSequences_spec].
    apply E. eauto.
Qed.

(** The wild between the two 1s bridges the run; a run of two positions,
    the wild included, is too short. *)
Example getPaylinePositionsBySymbol_cases :
  WinningCombinationsRefactored.getPaylinePositionsBySymbol [1; 0; 1]%Z 1%Z
  = Some [0; 1; 2]
  ∧ WinningCombinationsRefactored.getPaylinePositionsBySymbol
      [1; 5; 1; 0]%Z 1%Z = None.
Proof. vm_compute. done. Qed.

Lemma refactored_call_visit line acc symbol :
  WinningCombinationsRefactored.call_visit line acc symbol
  = call_visit line acc symbol.
Proof.
  unfold WinningCombinationsRefactored.call_visit, call_visit,
    WinningCombinationsRefactored.getPaylinePositionsBySymbol,
    WinningCombinationsRefactored.array_or_null.
  destruct (isElegibleSymbol symbol); simpl; [|done].
  by destruct (findPaylinePositions _).
Qed.

(** X11. The refactored copies of the module compute what
    [winning-combinations.ts] computes: on every payline their [call] throws
    when its [call] throws and returns the same combinations, in the same
    order, when it returns. *)
Theorem refactored_call_agrees (line : list Z) :
  WinningCombinationsRefactored.call line = call line.
Proof.
  unfold WinningCombinationsRefactored.call, call.
  destruct (validateSymbols (new_Set line)); simpl; [|done].
  destruct (bool_decide _ && _); [done|]. f_equal.
  generalize (@nil (Z * list nat)).
  induction (new_Set line) as [|s symbols IH]; intros acc; simpl; [done|].
  by rewrite refactored_call_visit, IH.
Qed.

End WinningCombinationsMore.

Module CadenceMore.
Import Cadence CadenceFacts.

(** *** The cumulative counts on their own *)

Lemma cumulative_count_mono symbols i j :
  i ≤ j → cumulative_count symbols i ≤ cumulative_count symbols j.
Proof.
  intros Hle. unfold cumulative_count.
  induction symbols as [|s symbols IH]; [done|].
  rewrite !filter_cons. repeat case_decide; simpl; lia.
Qed.

(** X12. [calculateCumulativeSymbolCountsPerColumn] returns one count per
    column; the count of column [i] is the number of special symbols in the
    columns [0 .. i]; the counts never decrease from one column to the next
    and never exceed the number of special symbols. *)
Theorem calculateCumulativeSymbolCountsPerColumn_properties
    (symbols : list SlotCoordinate) :
  length (calculateCumulativeSymbolCountsPerColumn symbols)
  = columnSize anticipatorConfig
  ∧ (∀ i x,
       calculateCumulativeSymbolCountsPerColumn symbols !! i = Some x →
       x = length (filter (λ symbol, (0 ≤ column symbol ≤ Z.of_nat i)%Z)
                     symbols)
       ∧ x ≤ length symbols)
  ∧ ∀ i j x y,
      i ≤ j →
      calculateCumulativeSymbolCountsPerColumn symbols !! i = Some x →
      calculateCumulativeSymbolCountsPerColumn symbols !! j = Some y →
      x ≤ y.
Proof.
  assert (length (calculateCumulativeSymbolCountsPerColumn symbols)
          = columnSize anticipatorConfig) as Hlen.
  { by rewrite calculateCumulativeSymbolCountsPerColumn_eq, length_fmap,
      length_seq. }
  assert (∀ i x,
            calculateCumulativeSymbolCountsPerColumn symbols !! i = Some x →
            x = cumulative_count symbols i) as Hat.
  { intros i x Hi. pose proof (lookup_lt_Some _ _ _ Hi) as Hlt.
    rewrite Hlen in Hlt.
    rewrite calculateCumulativeSymbolCountsPerColumn_lookup in Hi by done.
    by injection Hi. }
  split_and!; [done| |].
  - intros i x ->%Hat. split; [done|]. apply length_filter.
  - intros i j x y Hle ->%Hat ->%Hat. by apply cumulative_count_mono.
Qed.

(** *** Which coordinates matter *)

Lemma cumulative_count_columns symbols i :
  cumulative_count symbols i
  = length (filter (λ c, (0 ≤ c ≤ Z.of_nat i)%Z) (column <$> symbols)).
Proof.
  unfold cumulative_count. induction symbols as [|s symbols IH]; [done|].
  rewrite fmap_cons, !filter_cons. repeat case_decide; simpl; lia.
Qed.

Lemma cadence_at_ext counts1 counts2 i :
  (∀ j, j < i → counts1 !!! j = counts2 !!! j) →
  cadence_at counts1 i = cadence_at counts2 i.
Proof.
  induction i as [|i IH]; intros Hj; [done|]. simpl.
  rewrite IH by (intros j ?; apply Hj; lia). by rewrite Hj by lia.
Qed.

(** The cadence through the counts of the columns [0 .. columnSize-2]
    alone. *)
Lemma calculateSlotCadence_ext symbols1 symbols2 :
  (∀ j, S j < columnSize anticipatorConfig →
        cumulative_count symbols1 j = cumulative_count symbols2 j) →
  calculateSlotCadence symbols1 = calculateSlotCadence symbols2.
Proof.
  intros Hj. rewrite !calculateSlotCadence_eq. apply list_fmap_ext.
  intros k i [-> Hi]%lookup_seq. simpl in *. apply cadence_at_ext.
  intros j Hlt.
  rewrite !(list_lookup_total_correct _ j (cumulative_count _ j))
    by (apply calculateCumulativeSymbolCountsPerColumn_lookup; simpl; lia).
  apply Hj. simpl. lia.
Qed.

(** X13. Only the columns of the special symbols matter: two lists of
    coordinates with the same columns, in whatever order and with whatever
    rows, have the same cadence. *)
Theorem calculateSlotCadence_columns_only
    (symbols1 symbols2 : list SlotCoordinate) :
  column <$> symbols1 ≡ₚ column <$> symbols2 →
  calculateSlotCadence symbols1 = calculateSlotCadence symbols2.
Proof.
  intros Hperm. apply calculateSlotCadence_ext. intros j _.
  by rewrite !cumulative_count_columns, Hperm.
Qed.

Lemma calculateSlotCadence_columns_only_witness :
  calculateSlotCadence [ {| column := 0; row := 2 |};
                         {| column := 1; row := 3 |} ]
  = calculateSlotCadence [ {| column := 1; row := 7 |};
                           {| column := 0; row := 0 |} ].
Proof. apply calculateSlotCadence_columns_only. simpl. apply perm_swap. Defined.

(** X14. The special symbols of the last column never count: the cadence
    is that of the list without them. *)
Theorem calculateSlotCadence_ignores_last_column
    (symbols : list SlotCoordinate) :
  calculateSlotCadence symbols
  = calculateSlotCadence
      (filter (λ symbol,
                 column symbol
                 ≠ (Z.of_nat (columnSize anticipatorConfig) - 1)%Z)
         symbols).
Proof.
  apply calculateSlotCadence_ext. intros j Hj. unfold cumulative_count.
  induction symbols as [|s symbols IH]; [done|].
  rewrite (filter_cons (λ symbol, column symbol ≠ _) s symbols).
  case_decide as Hlast.
  - rewrite !filter_cons. case_decide; [|exact IH].
    cbn [length]. by rewrite IH.
  - rewrite <- IH, filter_cons. case_decide; [lia|done].
Qed.

(** *** The cadence in closed form *)

Lemma cadence_at_closed_form counts i :
  (cadence_at counts i
   == inject_Z (Z.of_nat i) * defaultCadence anticipatorConfig
      + inject_Z (Z.of_nat
          (length (filter (λ j, anticipating (counts !!! j)) (seq 0 i))))
        * (anticipateCadence anticipatorConfig
           - defaultCadence anticipatorConfig))%Q.
Proof.
  induction i as [|i IH]; [reflexivity|].
  cbn [cadence_at]. rewrite IH, seq_S, filter_app, length_app.
  rewrite filter_cons, filter_nil. simpl (0 + i).
  rewrite Nat2Z.inj_succ, Nat2Z.inj_add. unfold Z.succ, increment.
  rewrite !inject_Z_plus.
  case_decide; simpl (inject_Z (Z.of_nat (length _))); ring.
Qed.

Lemma filter_ext_in {A} (P Q : A → Prop) `{∀ x, Decision (P x)}
    `{∀ x, Decision (Q x)} (l : list A) :
  (∀ x, x ∈ l → P x ↔ Q x) → filter P l = filter Q l.
Proof.
  induction l as [|x l IH]; intros Hl; [done|].
  rewrite !filter_cons, IH by (intros y ?; apply Hl; by right).
  pose proof (Hl x ltac:(left)). repeat case_decide; tauto || done.
Qed.

Lemma calculateSlotCadence_closed_form_lookup symbols i :
  i < columnSize anticipatorConfig →
  ∃ c, calculateSlotCadence symbols !! i = Some c
       ∧ (c == inject_Z (Z.of_nat i) * defaultCadence anticipatorConfig
               + inject_Z (Z.of_nat (anticipations symbols i))
                 * (anticipateCadence anticipatorConfig
                    - defaultCadence anticipatorConfig))%Q.
Proof.
  intros Hi. rewrite calculateSlotCadence_lookup by done.
  eexists. split; [done|]. rewrite cadence_at_closed_form.
  unfold anticipations.
  rewrite (filter_ext_in _ (λ j, anticipating (cumulative_count symbols j)));
    [reflexivity|].
  intros j [_ Hj]%elem_of_seq.
  rewrite (list_lookup_total_correct _ j (cumulative_count symbols j)); [done|].
  apply calculateCumulativeSymbolCountsPerColumn_lookup. lia.
Qed.

(** X15. The cadence in closed form: the cadence of column [i] is [i] times
    [defaultCadence] (0.25) plus [anticipateCadence - defaultCadence] (1.75)
    for each of the columns [0 .. i-1] up to which the special symbols
    count within the anticipation window (exactly 2). *)
Theorem calculateSlotCadence_closed_form
    (symbols : list SlotCoordinate) (i : nat) :
  i < columnSize anticipatorConfig →
  ∃ c, calculateSlotCadence symbols !! i = Some c
       ∧ (c == inject_Z (Z.of_nat i) * defaultCadence anticipatorConfig
               + inject_Z (Z.of_nat (anticipations symbols i))
                 * (anticipateCadence anticipatorConfig
                    - defaultCadence anticipatorConfig))%Q
       ∧ (c == inject_Z (Z.of_nat i) * (1 # 4)
               + inject_Z (Z.of_nat
                   (length (filter (λ j, cumulative_count symbols j = 2%nat)
                              (seq 0 i)))) * (7 # 4))%Q.
Proof.
  intros Hi.
  destruct (calculateSlotCadence_closed_form_lookup symbols i Hi)
    as (c & Hc & Heq).
  exists c. split_and!; [done..|]. rewrite Heq. unfold anticipations.
  rewrite (filter_ext_in _ (λ j, cumulative_count symbols j = 2));
    [reflexivity|].
  intros j _. unfold anticipating. simpl. lia.
Qed.

Lemma calculateSlotCadence_closed_form_witness :
  ∃ c, calculateSlotCadence
         (specialSymbols (RoundsSymbols.roundOne gameRounds)) !! 3 = Some c
       ∧ (c == inject_Z (Z.of_nat 3) * defaultCadence anticipatorConfig
               + inject_Z (Z.of_nat
                   (anticipations
                      (specialSymbols (RoundsSymbols.roundOne gameRounds)) 3))
                 * (anticipateCadence anticipatorConfig
                    - defaultCadence anticipatorConfig))%Q
       ∧ (c == inject_Z (Z.of_nat 3) * (1 # 4)
               + inject_Z (Z.of_nat
                   (length (filter
                      (λ j, cumulative_count
                              (specialSymbols
                                 (RoundsSymbols.roundOne gameRounds)) j
                            = 2%nat)
                      (seq 0 3)))) * (7 # 4))%Q.
Proof.
  apply calculateSlotCadence_closed_form. simpl. lia.
Defined.

(** X16. Without anticipation the reels stop at the steady default rate:
    when the columns before the last hold fewer than [minToAnticipate] (2)
    special symbols, the cadence is 0, 0.25, 0.5, 0.75, 1. *)
Theorem calculateSlotCadence_default_ramp (symbols : list SlotCoordinate) :
  cumulative_count symbols (columnSize anticipatorConfig - 2)
  < minToAnticipate anticipatorConfig →
  Forall2 Qeq (calculateSlotCadence symbols)
    [0; 1 # 4; 1 # 2; 3 # 4; 1]%Q.
Proof.
  intros Hfew.
  assert (∀ i, i < columnSize anticipatorConfig → anticipations symbols i = 0)
    as Hnone.
  { intros i Hi. unfold anticipations.
    rewrite (filter_ext_in _ (λ _, False)).
    - by induction (seq 0 i).
    - intros j [_ Hj]%elem_of_seq. unfold anticipating.
      pose proof (cumulative_count_mono symbols j
                    (columnSize anticipatorConfig - 2)) as Hm.
      simpl in *. lia. }
  apply Forall2_same_length_lookup. split.
  - by rewrite length_calculateSlotCadence.
  - intros i x y Hx Hy. pose proof (lookup_lt_Some _ _ _ Hx) as Hi.
    rewrite length_calculateSlotCadence in Hi.
    destruct (calculateSlotCadence_closed_form_lookup symbols i Hi)
      as (c & Hc & Heq).
    rewrite Hx in Hc. injection Hc as <-. rewrite Heq, (Hnone i Hi).
    simpl in Hi.
    do 5 (destruct i as [|i]; [injection Hy as <-; reflexivity|]). lia.
Qed.

Lemma calculateSlotCadence_default_ramp_witness :
  Forall2 Qeq
    (calculateSlotCadence
       (specialSymbols (RoundsSymbols.roundThree gameRounds)))
    [0; 1 # 4; 1 # 2; 3 # 4; 1]%Q.
Proof. apply calculateSlotCadence_default_ramp. vm_compute. lia. Defined.

(** *** [handleCadences] over a series of calls *)

(** One call, from a store that holds the container. *)
Lemma handleCadences_read rounds (σ : store) fields :
  σ !! slotMachineCadences = Some (RoundsCadencesObject fields) →
  ∃ σ' fields',
    handleCadences rounds σ = (slotMachineCadences, σ')
    ∧ σ' !! slotMachineCadences = Some (RoundsCadencesObject fields')
    ∧ read_cadences σ' slotMachineCadences
      = Some (calculateSlotCadence
                (specialSymbols (RoundsSymbols.roundOne rounds)),
              calculateSlotCadence
                (specialSymbols (RoundsSymbols.roundTwo rounds)),
              calculateSlotCadence
                (specialSymbols (RoundsSymbols.roundThree rounds))).
Proof.
  intros Hobj. unfold handleCadences, mbind, js_bind, mret, js_ret.
  destruct (new_object_spec
              (ArrayObject (calculateSlotCadence
                 (specialSymbols (RoundsSymbols.roundOne rounds)))) σ)
    as (a1 & -> & Hf1).
  unfold set_roundOne at 1.
  match goal with
  | |- context [new_object ?o ?s] =>
      destruct (new_object_spec o s) as (a2 & -> & Hf2)
  end.
  unfold set_roundTwo at 1.
  match goal with
  | |- context [new_object ?o ?s] =>
      destruct (new_object_spec o s) as (a3 & -> & Hf3)
  end.
  unfold set_roundThree at 1.
  rewrite ?dom_alter_L, ?dom_insert_L in Hf2, Hf3.
  rewrite ?dom_alter_L, ?dom_insert_L in Hf3.
  assert (slotMachineCadences ∈ dom σ) as Hin by by eapply elem_of_dom_2.
  assert (a1 ≠ slotMachineCadences ∧ a2 ≠ slotMachineCadences
          ∧ a3 ≠ slotMachineCadences ∧ a1 ≠ a2 ∧ a1 ≠ a3 ∧ a2 ≠ a3)
    as (?&?&?&?&?&?) by set_solver.
  eexists _, {| RoundsCadences.roundOne := a1; RoundsCadences.roundTwo := a2;
                RoundsCadences.roundThree := a3 |}.
  split; [reflexivity|].
  match goal with |- ?s !! _ = _ ∧ _ => set (σ' := s) end.
  assert (σ' !! slotMachineCadences
          = Some (RoundsCadencesObject
                    {| RoundsCadences.roundOne := a1;
                       RoundsCadences.roundTwo := a2;
                       RoundsCadences.roundThree := a3 |})) as Hcontainer.
  { subst σ'.
    rewrite lookup_alter_eq, lookup_insert_ne, lookup_alter_eq,
      lookup_insert_ne, lookup_alter_eq, lookup_insert_ne, Hobj by done.
    done. }
  assert (σ' !! a1 = Some (ArrayObject (calculateSlotCadence
            (specialSymbols (RoundsSymbols.roundOne rounds))))) as Ha1.
  { subst σ'.
    by rewrite lookup_alter_ne, lookup_insert_ne, lookup_alter_ne,
      lookup_insert_ne, lookup_alter_ne, lookup_insert_eq by done. }
  assert (σ' !! a2 = Some (ArrayObject (calculateSlotCadence
            (specialSymbols (RoundsSymbols.roundTwo rounds))))) as Ha2.
  { subst σ'.
    by rewrite lookup_alter_ne, lookup_insert_ne, lookup_alter_ne,
      lookup_insert_eq by done. }
  assert (σ' !! a3 = Some (ArrayObject (calculateSlotCadence
            (specialSymbols (RoundsSymbols.roundThree rounds))))) as Ha3.
  { subst σ'. by rewrite lookup_alter_ne, lookup_insert_eq by done. }
  split; [exact Hcontainer|].
  unfold read_cadences, read_array. rewrite Hcontainer. simpl.
  by rewrite Ha1, Ha2, Ha3.
Qed.

Lemma handleCadences_all_container calls :
  ∀ (σ : store) fields,
    σ !! slotMachineCadences = Some (RoundsCadencesObject fields) →
    ∃ fields',
      handleCadences_all calls σ !! slotMachineCadences
      = Some (RoundsCadencesObject fields').
Proof.
  induction calls as [|rounds calls IH]; intros σ fields Hobj.
  - by exists fields.
  - destruct (handleCadences_read rounds σ fields Hobj)
      as (σ' & fields' & Hrun & Hobj' & _).
    change (handleCadences_all (rounds :: calls) σ)
      with (handleCadences_all calls (handleCadences rounds σ).2).
    rewrite Hrun. by eapply IH.
Qed.

(** X17. However many calls of [handleCadences] came before, starting from
    the store in which the module is loaded, a call returns the module's
    container, and the container then shows the cadences of the three
    rounds given to that call, each computed from its own round alone:
    nothing of the earlier calls is left in what it shows. *)
Theorem handleCadences_shows_latest_rounds
    (calls : list RoundsSymbols.t) (rounds : RoundsSymbols.t) :
  ∃ σ',
    handleCadences rounds (handleCadences_all calls initial_store)
    = (slotMachineCadences, σ')
    ∧ read_cadences σ' slotMachineCadences
      = Some (calculateSlotCadence
                (specialSymbols (RoundsSymbols.roundOne rounds)),
              calculateSlotCadence
                (specialSymbols (RoundsSymbols.roundTwo rounds)),
              calculateSlotCadence
                (specialSymbols (RoundsSymbols.roundThree rounds))).
Proof.
  destruct (handleCadences_all_container calls initial_store
              {| RoundsCadences.roundOne := 0; RoundsCadences.roundTwo := 1;
                 RoundsCadences.roundThree := 2 |} eq_refl)
    as (fields & Hobj).
  destruct (handleCadences_read rounds _ fields Hobj)
    as (σ' & _ & Hrun & _ & Hread).
  by exists σ'.
Qed.

End CadenceMore.
